(** * MCMC sampling engine of the Bayesian workflow tutorial

    The repository (slides/mcmc.md, mcmc.ipynb, pymc_intro.ipynb) describes a
    Markov-chain Monte Carlo engine: the Metropolis algorithm, Hamiltonian
    Monte Carlo and NUTS, the assignment of step methods by competence, the
    automatic transformation of bounded variables, multi-chain sampling, and
    the convergence diagnostics (R-hat, BFMI, divergences).

    This development embeds those algorithms and formulas and proves the
    properties the specification states about them.  Exact rational
    arithmetic ([Q]) stands for the floating-point numbers wherever only field
    operations are involved, so that every such definition computes; the
    real numbers ([R]) are used where a square root, a logarithm or an
    exponential is taken. *)

From stdpp Require Import base strings gmap list.
From Stdlib Require Import QArith Qabs Qreals Reals Lra Lia Psatz Qfield.

Open Scope Q_scope.

(* ===================================================================== *)
(** * Rational sums and moments *)
(* ===================================================================== *)

Fixpoint sumQ (xs : list Q) : Q :=
  match xs with
  | [] => 0
  | x :: r => x + sumQ r
  end.

(** The number of draws, as a rational. *)
Definition lenQ {A : Type} (xs : list A) : Q := inject_Z (Z.of_nat (length xs)).

Definition mean (xs : list Q) : Q := sumQ xs / lenQ xs.

Definition sq (x : Q) : Q := x * x.

(** [sum_sq_dev c xs] is the sum of the squared deviations of [xs] from [c]. *)
Definition sum_sq_dev (c : Q) (xs : list Q) : Q :=
  sumQ (map (fun x => sq (x - c)) xs).

(** A chain that never moves: every draw is (numerically) the first one. *)
Definition constant_chain (xs : list Q) : bool :=
  match xs with
  | [] => true
  | x :: r => forallb (Qeq_bool x) r
  end.

(* ===================================================================== *)
(** * Diagnostics Engine *)
(* ===================================================================== *)

Module Diagnostics.

(** ** Potential scale reduction (mcmc.ipynb, "Potential Scale Reduction")

    Assuming [m] chains, each of length [n]:
    B = n/(m-1) * sum_j (mean_j - grand_mean)^2,
    W = 1/m * sum_j [ 1/(n-1) * sum_i (theta_ij - mean_j)^2 ],
    Var = (n-1)/n * W + 1/n * B,   R-hat = sqrt (Var / W). *)

Definition num_chains (chains : list (list Q)) : Q := lenQ chains.

Definition chain_length (chains : list (list Q)) : Q :=
  match chains with
  | [] => 0
  | c :: _ => lenQ c
  end.

(** The mean over all the draws of all the chains. *)
Definition grand_mean (chains : list (list Q)) : Q := mean (concat chains).

Definition between_chain_variance (chains : list (list Q)) : Q :=
  let n := chain_length chains in
  let m := num_chains chains in
  n / (m - 1) * sumQ (map (fun c => sq (mean c - grand_mean chains)) chains).

(** The variance of one chain about its own mean, with divisor [n - 1]. *)
Definition chain_variance (c : list Q) : Q :=
  1 / (lenQ c - 1) * sum_sq_dev (mean c) c.

Definition within_chain_variance (chains : list (list Q)) : Q :=
  1 / num_chains chains * sumQ (map chain_variance chains).

Definition var_hat (chains : list (list Q)) : Q :=
  let n := chain_length chains in
  (n - 1) / n * within_chain_variance chains
  + 1 / n * between_chain_variance chains.

(** The quantity under the square root. *)
Definition rhat_ratio (chains : list (list Q)) : Q :=
  var_hat chains / within_chain_variance chains.

Definition rhat (chains : list (list Q)) : R :=
  sqrt (Q2R (rhat_ratio chains)).

(** Modelled from the spec: the splitting step of split-R-hat ("split each
    chain's post-warm-up draws in half, treat halves as 2C pseudo-chains"),
    which the notebook leaves to the diagnostics library. *)
Definition split_chain (c : list Q) : list (list Q) :=
  let h := (length c / 2)%nat in [take h c; drop h c].

Definition split_chains (chains : list (list Q)) : list (list Q) :=
  concat (map split_chain chains).

Definition split_rhat (chains : list (list Q)) : R :=
  rhat (split_chains chains).

(** ** Bayesian fraction of missing information (mcmc.ipynb)

    BFMI-hat = sum_n (E_n - E_(n-1))^2 / sum_n (E_n - mean E)^2. *)

(** The successive energy differences E_n - E_(n-1); there is no E_0, so a
    trace of N energies has N - 1 of them. *)
Fixpoint diffs (E : list Q) : list Q :=
  match E with
  | e0 :: r =>
      match r with
      | e1 :: _ => (e1 - e0) :: diffs r
      | [] => []
      end
  | [] => []
  end.

Definition bfmi (E : list Q) : Q :=
  sumQ (map sq (diffs E)) / sum_sq_dev (mean E) E.

(** The variance of a sequence about its mean (divisor [N]) and the sample
    variance (divisor [N - 1]). *)
Definition variance (xs : list Q) : Q := sum_sq_dev (mean xs) xs / lenQ xs.

Definition sample_variance (xs : list Q) : Q :=
  sum_sq_dev (mean xs) xs / (lenQ xs - 1).

(** The specification's wording of the diagnostic: Var(dE) / Var(E). *)
Definition bfmi_spec (E : list Q) : Q := variance (diffs E) / variance E.

Definition bfmi_spec_sample (E : list Q) : Q :=
  sample_variance (diffs E) / sample_variance E.

(** Modelled from the spec: the rule-of-thumb threshold below which a chain's
    BFMI is flagged; the notebook only prints the values of [az.bfmi]. *)
Definition bfmi_threshold : Q := 3 # 10.

Definition low_bfmi (b : Q) : bool := negb (Qle_bool bfmi_threshold b).

Record BfmiReport := mkBfmiReport {
  bfmi_value : Q;
  bfmi_warning : bool
}.

(** Modelled from the spec: the report of the diagnostic ("low values are
    flagged as a warning"), one entry per chain with the value and the flag;
    the notebook only prints the values. *)
Definition bfmi_report (energies : list (list Q)) : list BfmiReport :=
  map (fun E => mkBfmiReport (bfmi E) (low_bfmi (bfmi E))) energies.

End Diagnostics.

(* ===================================================================== *)
(** * Extended reals: the values of a log-density *)
(* ===================================================================== *)

(** A log-density is a real number or minus infinity; differences of
    log-densities may also be plus infinity or undefined. *)
Inductive xreal : Type :=
  | NegInf
  | Fin (r : R)
  | PosInf
  | NaN.

Definition is_finite (x : xreal) : Prop :=
  match x with
  | Fin _ => True
  | _ => False
  end.

Definition xopp (x : xreal) : xreal :=
  match x with
  | NegInf => PosInf
  | Fin r => Fin (- r)
  | PosInf => NegInf
  | NaN => NaN
  end.

Definition xminus (x y : xreal) : xreal :=
  match x, y with
  | NaN, _ | _, NaN => NaN
  | Fin a, Fin b => Fin (a - b)
  | NegInf, NegInf | PosInf, PosInf => NaN
  | NegInf, _ | _, PosInf => NegInf
  | PosInf, _ | _, NegInf => PosInf
  end.

(** The strict order; a comparison with an undefined value is false. *)
Definition xlt (x y : xreal) : Prop :=
  match x, y with
  | NaN, _ | _, NaN => False
  | Fin a, Fin b => (a < b)%R
  | NegInf, NegInf | PosInf, _ | _, NegInf => False
  | NegInf, _ | _, PosInf => True
  end.

(** The logarithm of a non-negative rational, with log 0 = -infinity. *)
Definition xlog (q : Q) : xreal :=
  if Qlt_le_dec 0 q then Fin (ln (Q2R q)) else NegInf.

(* ===================================================================== *)
(** * Metropolis sampling (slides/mcmc.md, "Metropolis sampling") *)
(* ===================================================================== *)

Module Metropolis.

Section Sampler.

(** The parameter vectors and the target density pi (up to a constant). *)
Variable State : Type.
Variable pi : State -> Q.

(** The randomness a proposal consumes, and the proposal
    theta' ~ q(theta' | theta) as a function of it. *)
Variable Noise : Type.
Variable propose : State -> Noise -> State.

(** Step 3: the acceptance probability a(theta', theta) = pi(theta') / pi(theta). *)
Definition acceptance (cand cur : State) : Q := pi cand / pi cur.

(** Step 4: "if a(theta', theta) > u". *)
Definition accepts (cand cur : State) (u : Q) : bool :=
  negb (Qle_bool (acceptance cand cur) u).

(** Step 4: theta(t+1) = theta' if accepted, otherwise theta(t+1) = theta(t). *)
Definition step (cur cand : State) (u : Q) : State :=
  if accepts cand cur u then cand else cur.

(** ** The same rule on the log scale, in the specification's words *)

(** Modelled from the spec: the Target Oracle's [log_density], which is
    log pi and "must return -infinity for out-of-support inputs"; the slides
    work with pi itself. *)
Definition log_density (x : State) : xreal := xlog (pi x).

Definition in_support (x : State) : Prop := 0 < pi x.

(** acceptance_log_ratio = log pi(candidate) - log pi(current). *)
Definition acceptance_log_ratio (cand cur : State) : xreal :=
  xminus (log_density cand) (log_density cur).

(** "accept iff log(u) < acceptance_log_ratio". *)
Definition accepts_log (cand cur : State) (u : Q) : Prop :=
  xlt (xlog u) (acceptance_log_ratio cand cur).

(** ** The chain: theta(0), theta(1), ... recorded as a trace of draws

    The slides define the sequence theta(t); the record of it as a trace of
    draws follows the specification's Chain Runner ("append every Draw
    (including rejects) to the Trace"). *)

Record Draw := mkDraw {
  draw_position : State;
  draw_density : Q;
  draw_accepted : bool
}.

Record Chain := mkChain {
  current : State;
  trace : list Draw
}.

(** One iteration: the next state is decided and recorded, whether the
    candidate was accepted or not. *)
Definition sample_step (c : Chain) (cand : State) (u : Q) : Chain :=
  let next := step (current c) cand u in
  mkChain next
    (trace c ++ [mkDraw next (pi next) (accepts cand (current c) u)]).

(** The iterations driven by a stream of proposal noise and uniform
    variates. *)
Fixpoint run (c : Chain) (rng : list (Noise * Q)) : Chain :=
  match rng with
  | [] => c
  | (z, u) :: rest => run (sample_step c (propose (current c) z) u) rest
  end.

End Sampler.

(** A target on the half line (zero density below 0) and the random-walk
    proposal candidate = current + scale * noise. *)
Definition half_line_target (x : Q) : Q :=
  if Qle_bool 0 x then 1 / (1 + x * x) else 0.

Definition random_walk (scale : Q) (x z : Q) : Q := x + scale * z.

End Metropolis.

Arguments Metropolis.mkDraw {State} _ _ _.
Arguments Metropolis.draw_position {State} _.
Arguments Metropolis.draw_density {State} _.
Arguments Metropolis.draw_accepted {State} _.
Arguments Metropolis.mkChain {State} _ _.
Arguments Metropolis.current {State} _.
Arguments Metropolis.trace {State} _.
Arguments Metropolis.acceptance {State} pi cand cur.
Arguments Metropolis.accepts {State} pi cand cur u.
Arguments Metropolis.step {State} pi cur cand u.
Arguments Metropolis.log_density {State} pi x.
Arguments Metropolis.in_support {State} pi x.
Arguments Metropolis.acceptance_log_ratio {State} pi cand cur.
Arguments Metropolis.accepts_log {State} pi cand cur u.
Arguments Metropolis.sample_step {State} pi c cand u.
Arguments Metropolis.run {State} pi {Noise} propose c rng.

(* ===================================================================== *)
(** * Competence Registry (mcmc.ipynb, "Assigning sampling algorithm") *)
(* ===================================================================== *)

Module Registry.

(** The attributes of a random variable the registry looks at. *)
Inductive Support : Type :=
  | Binary
  | Discrete
  | ContinuousUnbounded
  | ContinuousBounded.

Record Descriptor := mkDescriptor {
  support : Support;
  gradient_available : bool
}.

(** "This method returns a value from 0 (incompatible) to 3 (ideal)". *)
Inductive Competence : Type :=
  | incompatible
  | compatible
  | better
  | ideal.

Definition score (c : Competence) : nat :=
  match c with
  | incompatible => 0
  | compatible => 1
  | better => 2
  | ideal => 3
  end.

Inductive StepMethod : Type :=
  | NUTS
  | HamiltonianMC
  | Metropolis
  | BinaryMetropolis.

Definition is_continuous (s : Support) : bool :=
  match s with
  | ContinuousUnbounded | ContinuousBounded => true
  | Binary | Discrete => false
  end.

(** Modelled from the spec: the Competence class method of each step method,
    which the notebook describes only by its range and by the resulting
    default policy.  The gradient-based samplers are competent only for
    continuous variables with a gradient, the binary sampler only for binary
    variables, and random-walk Metropolis is compatible with everything. *)
Definition competence (m : StepMethod) (d : Descriptor) : Competence :=
  match m with
  | NUTS =>
      if is_continuous (support d) && gradient_available d
      then ideal else incompatible
  | HamiltonianMC =>
      if is_continuous (support d) && gradient_available d
      then compatible else incompatible
  | Metropolis => compatible
  | BinaryMetropolis =>
      match support d with
      | Binary => ideal
      | _ => incompatible
      end
  end.

(** The registered step methods, in registration order. *)
Definition step_methods : list StepMethod :=
  [NUTS; HamiltonianMC; Metropolis; BinaryMetropolis].

(** The first method of [ms] with the highest competence for [d], starting
    from the candidate [best]. *)
Fixpoint most_competent (d : Descriptor) (best : StepMethod)
    (ms : list StepMethod) : StepMethod :=
  match ms with
  | [] => best
  | m :: rest =>
      if (score (competence best d) <? score (competence m d))%nat
      then most_competent d m rest
      else most_competent d best rest
  end.

(** "sample() assigns the step method that returns the highest competence
    value". *)
Definition default_method (d : Descriptor) : StepMethod :=
  most_competent d NUTS step_methods.

(** The default policy as the specification words it. *)
Definition default_policy (d : Descriptor) : StepMethod :=
  match support d with
  | Binary => BinaryMetropolis
  | Discrete => Metropolis
  | ContinuousUnbounded | ContinuousBounded =>
      if gradient_available d then NUTS else Metropolis
  end.

(** The outcome of the assignment: the step method of every variable and the
    variables for which the registry was consulted. *)
Record Assignment := mkAssignment {
  assigned : list (string * StepMethod);
  consulted : list string
}.

(** "... to each of its unallocated stochastic random variables": a variable
    the caller assigned keeps that step method; the registry is asked for the
    others. *)
Fixpoint assign_step_methods (override : gmap string StepMethod)
    (vars : list (string * Descriptor)) : Assignment :=
  match vars with
  | [] => mkAssignment [] []
  | (name, d) :: rest =>
      let a := assign_step_methods override rest in
      match override !! name with
      | Some m => mkAssignment ((name, m) :: assigned a) (consulted a)
      | None =>
          mkAssignment ((name, default_method d) :: assigned a)
                       (name :: consulted a)
      end
  end.

(** The variables of the rugby model with a discrete indicator added, and a
    caller who assigns Metropolis to alpha. *)
Definition example_vars : list (string * Descriptor) :=
  [("eta", mkDescriptor ContinuousUnbounded true);
   ("alpha", mkDescriptor ContinuousUnbounded true);
   ("sigma", mkDescriptor ContinuousBounded true);
   ("z", mkDescriptor Binary false);
   ("tau", mkDescriptor Discrete false)]%string.

Definition example_override : gmap string StepMethod :=
  {[ "alpha"%string := Metropolis ]}.

End Registry.

Definition xplus (x y : xreal) : xreal :=
  match x, y with
  | NaN, _ | _, NaN => NaN
  | Fin a, Fin b => Fin (a + b)
  | NegInf, PosInf | PosInf, NegInf => NaN
  | NegInf, _ | _, NegInf => NegInf
  | PosInf, _ | _, PosInf => PosInf
  end.

(* ===================================================================== *)
(** * Auto-transformation (pymc_intro.ipynb, "Auto-transformation") *)
(* ===================================================================== *)

Module Transform.

Local Open Scope R_scope.

(** The support of a continuous variable: the whole real line or a proper
    sub-interval of it. *)
Inductive Support : Type :=
  | RealLine
  | LowerBounded (a : R)
  | UpperBounded (b : R)
  | Bounded (a b : R).

Definition in_support (s : Support) (x : R) : Prop :=
  match s with
  | RealLine => True
  | LowerBounded a => a <= x
  | UpperBounded b => x <= b
  | Bounded a b => a <= x <= b
  end.

Definition well_formed (s : Support) : Prop :=
  match s with
  | Bounded a b => a < b
  | _ => True
  end.

(** "any continuous variables that are constrained to a sub-interval of the
    real line are automatically transformed". *)
Definition is_constrained (s : Support) : bool :=
  match s with
  | RealLine => false
  | _ => true
  end.

Definition sigmoid (y : R) : R := 1 / (1 + exp (- y)).

(** The transformation to the unconstrained scale.  The notebook names the
    log transform of the one-sided [sigma] ("the variable sigma has been
    log-transformed"); the log-odds transform of a two-sided interval is the
    framework's and is not shown there. *)
Definition forward (s : Support) (x : R) : R :=
  match s with
  | RealLine => x
  | LowerBounded a => ln (x - a)
  | UpperBounded b => ln (b - x)
  | Bounded a b => ln ((x - a) / (b - x))
  end.

(** "the value of the transformed variable is simply back-transformed to
    recover the original variable". *)
Definition backward (s : Support) (y : R) : R :=
  match s with
  | RealLine => y
  | LowerBounded a => a + exp y
  | UpperBounded b => b - exp y
  | Bounded a b => a + (b - a) * sigmoid y
  end.

(** The log of the derivative of [backward], added to the log-density on the
    transformed scale. *)
Definition log_jacobian (s : Support) (y : R) : R :=
  match s with
  | RealLine => 0
  | LowerBounded _ | UpperBounded _ => y
  | Bounded a b => ln (b - a) + ln (sigmoid y) + ln (1 - sigmoid y)
  end.

Definition transform_suffix (s : Support) : string :=
  match s with
  | RealLine => EmptyString
  | LowerBounded _ | UpperBounded _ => "_log__"
  | Bounded _ _ => "_interval__"
  end.

(** A free random variable of the model, with its log-probability. *)
Record RandomVariable := mkRV {
  rv_name : string;
  rv_support : Support;
  rv_logp : R -> xreal
}.

(** The value variable "actually used by the model's log-likelihood". *)
Record ValueVar := mkValueVar {
  vv_name : string;
  vv_transformed : bool;
  vv_logp : R -> xreal
}.

Definition value_var (v : RandomVariable) : ValueVar :=
  let s := rv_support v in
  mkValueVar (rv_name v ++ transform_suffix s)
             (is_constrained s)
             (fun y => xplus (rv_logp v (backward s y)) (Fin (log_jacobian s y))).

(** What a draw stores, after the notebook's description: the sampled value
    of the value variable and, for a transformed variable, the
    back-transformed value under the original name. *)
Record Entry := mkEntry {
  entry_name : string;
  entry_value : R;
  entry_transformed : bool
}.

Definition record_draw (v : RandomVariable) (y : R) : list Entry :=
  let s := rv_support v in
  if is_constrained s
  then [mkEntry (vv_name (value_var v)) y true;
        mkEntry (rv_name v) (backward s y) false]
  else [mkEntry (rv_name v) y false].

(** "auto-transformed variables are ignored when summarizing and plotting". *)
Definition summary_entries (es : list Entry) : list Entry :=
  filter (fun e => entry_transformed e = false) es.

(** The log-probability of HalfNormal(sigma): minus infinity below 0. *)
Definition halfnormal_logp (sigma x : R) : xreal :=
  if Rle_dec 0 x
  then Fin (- (x * x) / (2 * (sigma * sigma)) + ln (sqrt (2 / PI) / sigma))
  else NegInf.

(** sigma = pm.HalfNormal("sigma", 100.) of the spin-rate model. *)
Definition sigma_rv : RandomVariable :=
  mkRV "sigma" (LowerBounded 0) (halfnormal_logp 100).

End Transform.

(* ===================================================================== *)
(** * Hamiltonian Monte Carlo and NUTS *)
(* ===================================================================== *)

Definition Qltb (x y : Q) : bool := negb (Qle_bool y x).

Module Hamiltonian.

(** Positions and momenta. *)
Definition Vec : Type := list Q.

(** Componentwise arithmetic; every component is kept in lowest terms. *)
Definition vadd (a b : Vec) : Vec := zip_with (fun x y => Qred (x + y)) a b.
Definition vsub (a b : Vec) : Vec := zip_with (fun x y => Qred (x - y)) a b.
Definition vscale (c : Q) (a : Vec) : Vec := map (fun x => Qred (c * x)) a.
Definition dot (a b : Vec) : Q := sumQ (zip_with Qmult a b).

Record PhasePoint := mkPoint {
  position : Vec;
  momentum : Vec
}.

(** The per-draw statistics the Chain Runner collects. *)
Record Draw := mkDraw {
  draw_position : Vec;
  draw_energy : Q;
  diverging : bool;
  accepted : bool;
  tree_depth : nat;
  reached_max_treedepth : bool
}.

Record Config := mkConfig {
  step_size : Q;
  path_length : nat;
  divergence_threshold : Q;
  max_tree_depth : nat
}.

(** The defaults named by the specification: threshold 1000, ceiling 10. *)
Definition default_config (eps : Q) (L : nat) : Config :=
  mkConfig eps L 1000 10.

Section Dynamics.

(** The Target Oracle: the potential energy E(s) = - log pi(s) and its
    gradient. *)
Variable potential : Vec -> Q.
Variable grad_potential : Vec -> Vec.

Variable cfg : Config.

(** slides/mcmc.md: H(s, phi) = E(s) + K(phi) = E(s) + 1/2 sum_i phi_i^2. *)
Definition kinetic (p : Vec) : Q := (1 # 2) * dot p p.

Definition hamiltonian (z : PhasePoint) : Q :=
  potential (position z) + kinetic (momentum z).

(** Modelled from the spec: the leapfrog integrator ("half-step momentum
    update using the gradient of the negative log-density, full-step position
    update, half-step momentum update"); the slides only name it. *)
Definition leapfrog (eps : Q) (z : PhasePoint) : PhasePoint :=
  let p_half := vsub (momentum z) (vscale (eps / 2) (grad_potential (position z))) in
  let q' := vadd (position z) (vscale eps p_half) in
  let p' := vsub p_half (vscale (eps / 2) (grad_potential q')) in
  mkPoint q' p'.

Fixpoint integrate (L : nat) (eps : Q) (z : PhasePoint) : PhasePoint :=
  match L with
  | O => z
  | S k => integrate k eps (leapfrog eps z)
  end.

(** The energy error of a point relative to the energy [h0] the trajectory
    started with. *)
Definition energy_error (h0 : Q) (z : PhasePoint) : Q := hamiltonian z - h0.

(** Modelled from the spec: the divergence test ("a large energy difference
    (exceeding a fixed threshold, e.g. 1000) flags a divergence"); the
    notebook shows only the resulting warning. *)
Definition exceeds_threshold (err : Q) : bool :=
  Qltb (divergence_threshold cfg) (Qabs err).

(** Modelled from the spec: one HMC transition (slides: "sample a new
    velocity, perform n leapfrog steps, accept/reject").  [p0] is the momentum
    drawn for this transition and [logu] the log of the uniform variate; the
    acceptance log ratio is minus the energy error.  A divergent trajectory
    is rejected and flagged. *)
Definition hmc_transition (q : Vec) (p0 : Vec) (logu : Q) : Draw :=
  let start := mkPoint q p0 in
  let h0 := hamiltonian start in
  let finish := integrate (path_length cfg) (step_size cfg) start in
  let err := energy_error h0 finish in
  if exceeds_threshold err
  then mkDraw q h0 true false 0 false
  else if Qltb logu (- err)
       then mkDraw (position finish) (hamiltonian finish) false true 0 false
       else mkDraw q h0 false false 0 false.

(** Modelled from the spec: the sampling phase of the Chain Runner, one
    draw per element of the random stream, each transition starting where
    the previous draw stands. *)
Fixpoint hmc_sample (q : Vec) (rng : list (Vec * Q)) : list Draw :=
  match rng with
  | [] => []
  | (p0, logu) :: rest =>
      let d := hmc_transition q p0 logu in
      d :: hmc_sample (draw_position d) rest
  end.

(** ** NUTS: trajectory doubling

    The slides name the sampler and cite Hoffman and Gelman; the doubling
    procedure below is modelled from the specification's description. *)

(** A subtree of the trajectory, in integration order. *)
Record Subtree := mkSubtree {
  first_point : PhasePoint;
  last_point : PhasePoint;
  points : list PhasePoint;
  sub_diverged : bool;
  sub_turning : bool
}.

(** Modelled from the spec: the no-U-turn criterion between the two ends of
    a (sub)trajectory ("the dot product between the position difference of its
    endpoints and either endpoint's momentum becomes negative"). *)
Definition uturn (leftmost rightmost : PhasePoint) : bool :=
  let dq := vsub (position rightmost) (position leftmost) in
  Qltb (dot dq (momentum leftmost)) 0 || Qltb (dot dq (momentum rightmost)) 0.

Definition uturn_directed (forward : bool) (first last : PhasePoint) : bool :=
  if forward then uturn first last else uturn last first.

Definition signed_step (forward : bool) : Q :=
  if forward then step_size cfg else - step_size cfg.

(** Modelled from the spec: a subtree of 2^depth leapfrog steps from [z]
    ("simulating 2^depth new leapfrog steps"); it stops growing as soon as a
    half diverges or turns. *)
Fixpoint build_tree (depth : nat) (forward : bool) (h0 : Q) (z : PhasePoint)
    : Subtree :=
  match depth with
  | O =>
      let z' := leapfrog (signed_step forward) z in
      mkSubtree z' z' [z'] (exceeds_threshold (energy_error h0 z')) false
  | S d =>
      let t1 := build_tree d forward h0 z in
      if sub_diverged t1 || sub_turning t1 then t1
      else
        let t2 := build_tree d forward h0 (last_point t1) in
        mkSubtree (first_point t1) (last_point t2)
          (points t1 ++ points t2)
          (sub_diverged t2)
          (sub_turning t2
           || uturn_directed forward (first_point t1) (last_point t2))
  end.

(** The trajectory built so far. *)
Record Tree := mkTree {
  leftmost : PhasePoint;
  rightmost : PhasePoint;
  candidates : list PhasePoint;
  doublings : nat
}.

Inductive StopReason : Type :=
  | UTurn
  | Divergence
  | MaxTreeDepth.

(** Modelled from the spec: the doubling loop ("expansion terminates on a
    U-turn, on divergence, or at a maximum tree depth"), with at most [fuel]
    further doublings.  Each doubling
    extends the trajectory forward or backward by 2^depth leapfrog steps; a
    divergent or turning extension is discarded and ends the expansion, and
    so does a U-turn of the whole trajectory (after the extension has been
    merged). *)
Fixpoint expand (fuel : nat) (dirs : nat -> bool) (h0 : Q) (t : Tree)
    : Tree * StopReason :=
  match fuel with
  | O => (t, MaxTreeDepth)
  | S k =>
      let depth := doublings t in
      let forward := dirs depth in
      let sub :=
        build_tree depth forward h0 (if forward then rightmost t else leftmost t) in
      if sub_diverged sub
      then (mkTree (leftmost t) (rightmost t) (candidates t) (S depth), Divergence)
      else if sub_turning sub
      then (mkTree (leftmost t) (rightmost t) (candidates t) (S depth), UTurn)
      else
        let t' :=
          if forward
          then mkTree (leftmost t) (last_point sub)
                      (candidates t ++ points sub) (S depth)
          else mkTree (last_point sub) (rightmost t)
                      (candidates t ++ points sub) (S depth) in
        if uturn (leftmost t') (rightmost t') then (t', UTurn)
        else expand k dirs h0 t'
  end.

(** The weight exp(- energy error) of a candidate, supplied with the
    oracle's arithmetic. *)
Variable boltzmann : Q -> Q.

(** Modelled from the spec: multinomial selection of the draw among the
    candidates, the first one whose cumulated weight exceeds [u]; [fallback]
    when the weights are used up. *)
Fixpoint pick (h0 : Q) (u : Q) (fallback : PhasePoint)
    (pts : list PhasePoint) : PhasePoint :=
  match pts with
  | [] => fallback
  | z :: rest =>
      let w := boltzmann (energy_error h0 z) in
      if Qltb u w then z else pick h0 (u - w) z rest
  end.

Definition total_weight (h0 : Q) (pts : list PhasePoint) : Q :=
  sumQ (map (fun z => boltzmann (energy_error h0 z)) pts).

(** Modelled from the spec: one NUTS transition, which expands the
    trajectory from the current point up to [max_tree_depth] doublings.  When
    the expansion meets a divergence the transition is rejected and flagged
    ("Divergence: a rejected HMC/NUTS transition", "proposal rejected,
    flagged in Draw metadata, chain continues"): the draw stays at the
    current point.  Otherwise the draw is selected among the candidates of
    the trajectory, and reaching the ceiling is recorded in its flag. *)
Definition nuts_transition (q : Vec) (p0 : Vec) (dirs : nat -> bool) (u : Q)
    : Draw :=
  let start := mkPoint q p0 in
  let h0 := hamiltonian start in
  let '(t, reason) :=
    expand (max_tree_depth cfg) dirs h0 (mkTree start start [start] 0) in
  match reason with
  | Divergence => mkDraw q h0 true false (doublings t) false
  | _ =>
      let z := pick h0 (u * total_weight h0 (candidates t)) start (candidates t) in
      mkDraw (position z) (hamiltonian z) false true (doublings t)
        (match reason with MaxTreeDepth => true | _ => false end)
  end.

Fixpoint nuts_sample (q : Vec) (rng : list (Vec * (nat -> bool) * Q))
    : list Draw :=
  match rng with
  | [] => []
  | (p0, dirs, u) :: rest =>
      let d := nuts_transition q p0 dirs u in
      d :: nuts_sample (draw_position d) rest
  end.

End Dynamics.

(** ** Divergence summary *)

Record DivergenceSummary := mkDivergenceSummary {
  divergence_count : nat;
  divergence_indices : list nat;
  divergence_warning : bool
}.

Fixpoint divergent_indices_from (i : nat) (trace : list Draw) : list nat :=
  match trace with
  | [] => []
  | d :: rest =>
      if diverging d then i :: divergent_indices_from (S i) rest
      else divergent_indices_from (S i) rest
  end.

(** Modelled from the spec: the divergence summary ("count and draw indices
    of divergent transitions per chain"), with the warning the notebook quotes
    ("There were 5 divergences after tuning") when there is any. *)
Definition divergence_summary (trace : list Draw) : DivergenceSummary :=
  let idx := divergent_indices_from 0 trace in
  mkDivergenceSummary (length idx) idx (negb (Nat.eqb (length idx) 0)).

(** A standard normal target in one dimension: E(s) = s^2 / 2. *)
Definition normal_potential (q : Vec) : Q := (1 # 2) * dot q q.
Definition normal_gradient (q : Vec) : Vec := q.

(** A crude stand-in for exp(- x), used by the examples only. *)
Definition example_weight (x : Q) : Q := 1 / (1 + Qabs x).

End Hamiltonian.

(* ===================================================================== *)
(** * Multi-Chain Orchestrator *)
(* ===================================================================== *)

Module Orchestrator.

(** Modelled from the spec: the random streams.  The notebook passes
    [random_seed] to [pm.sample]; the generator behind it is the numerical
    library's.  A linear congruential generator on 31 bits stands for it, and
    the stream of chain [i] starts from the base seed advanced by [i]. *)
Definition rng_modulus : Z := 2 ^ 31.

Definition rng_next (s : Z) : Z := ((1103515245 * s + 12345) mod rng_modulus)%Z.

(** A variate in (0, 1]. *)
Definition rng_uniform (s : Z) : Q :=
  Qred (inject_Z (s mod rng_modulus + 1) / inject_Z rng_modulus).

Definition derive_stream (base_seed : Z) (chain : nat) : Z :=
  rng_next (base_seed + Z.of_nat chain)%Z.

Section Run.

(** Everything one chain owns: its state, its random stream, its trace. *)
Variable ChainState : Type.

(** The chain of index [i], seeded from the base seed and [i]. *)
Variable init_chain : Z -> nat -> ChainState.

(** One draw of one chain. *)
Variable chain_step : ChainState -> ChainState.

(** Modelled from the spec: "launches C independent Chain Runners"; the
    ensemble maps the chain index to the chain. *)
Definition launch (base_seed : Z) (C : nat) : list ChainState :=
  init_chain base_seed <$> seq 0 C.

(** Modelled from the spec: a worker advances the chain it runs by one draw
    ("chains execute with no shared mutable state"). *)
Definition step_chain (i : nat) (e : list ChainState) : list ChainState :=
  alter chain_step i e.

(** Modelled from the spec: an execution, parallel or sequential, as the
    order in which the draws of the chains happen. *)
Definition run_schedule (sched : list nat) (e : list ChainState)
    : list ChainState :=
  foldl (fun e i => step_chain i e) e sched.

(** Strictly sequential execution: all the draws of chain 0, then all the
    draws of chain 1, ... *)
Definition sequential_schedule (C D : nat) : list nat :=
  flat_map (fun i => replicate D i) (seq 0 C).

(** Chains advancing in lockstep, as with one worker per chain. *)
Definition round_robin_schedule (C D : nat) : list nat :=
  flat_map (fun _ => seq 0 C) (seq 0 D).

Definition run_sequential (base_seed : Z) (C D : nat) : list ChainState :=
  run_schedule (sequential_schedule C D) (launch base_seed C).

End Run.

(** The number of draws of chain [i] in an execution. *)
Fixpoint steps_of (i : nat) (sched : list nat) : nat :=
  match sched with
  | [] => 0
  | j :: rest => (if Nat.eqb i j then 1 else 0) + steps_of i rest
  end.

(** A complete run: each of the C chains makes exactly D draws. *)
Definition complete_schedule (C D : nat) (sched : list nat) : bool :=
  forallb (fun i => Nat.eqb (steps_of i sched) D) (seq 0 C).

(** A Metropolis chain together with its random stream. *)
Record Worker := mkWorker {
  worker_rng : Z;
  worker_chain : Metropolis.Chain Q
}.

Definition metropolis_init (x0 : Q) (base_seed : Z) (i : nat) : Worker :=
  mkWorker (derive_stream base_seed i) (Metropolis.mkChain x0 []).

Definition metropolis_draw (pi : Q -> Q) (scale : Q) (w : Worker) : Worker :=
  let s1 := rng_next (worker_rng w) in
  let s2 := rng_next s1 in
  let z := Qred (rng_uniform s1 - (1 # 2)) in
  let u := rng_uniform s2 in
  let c := worker_chain w in
  mkWorker s2
    (Metropolis.sample_step pi c
       (Qred (Metropolis.random_walk scale (Metropolis.current c) z)) u).

End Orchestrator.

Arguments Orchestrator.launch {ChainState} init_chain base_seed C.
Arguments Orchestrator.step_chain {ChainState} chain_step i e.
Arguments Orchestrator.run_schedule {ChainState} chain_step sched e.
Arguments Orchestrator.run_sequential {ChainState} init_chain chain_step base_seed C D.

(* ===================================================================== *)
(** * Further parts of the notebooks and slides *)
(* ===================================================================== *)

(** Every draw mapped by x |-> a * x + b: a change of unit or of origin. *)
Definition affine (a b : Q) (xs : list Q) : list Q :=
  map (fun x => a * x + b) xs.

(** ** The Metropolis acceptance rule as a probability

    The variate [u] of step 2 is uniform on [0,1] and the candidate is taken
    when a(theta', theta) > u, so it is taken with probability
    min (1, a(theta', theta)). *)
Definition acceptance_probability {State : Type} (pi : State -> Q)
    (cand cur : State) : Q :=
  let a := Metropolis.acceptance pi cand cur in
  if Qle_bool 1 a then 1 else a.

(** The target known only up to the constant [c], as a posterior is known
    only up to Pr(y). *)
Definition scaled_target {State : Type} (c : Q) (pi : State -> Q)
    : State -> Q :=
  fun x => c * pi x.

(** ** The Six Nations model (mcmc.ipynb) *)

Module Rugby.

(** [alpha - at.mean(alpha)]: the skills centred on their mean. *)
Definition center (xs : list Q) : list Q := map (fun x => x - mean xs) xs.

Record Params := mkParams {
  mu : Q;
  eta : Q;
  alpha : list Q;
  delta : list Q
}.

(** The argument of [at.exp] in
    [home_theta = at.exp(mu + eta + alpha_star[home_team] + delta[away_team])]
    for a game with home team [h] and away team [a]; there is no value when
    an index is not a team. *)
Definition home_log_theta (p : Params) (h a : nat) : option Q :=
  match center (alpha p) !! h, delta p !! a with
  | Some ah, Some da => Some (mu p + eta p + ah + da)
  | _, _ => None
  end.

(** The argument of [at.exp] in
    [away_theta = at.exp(mu + alpha[away_team] + delta[home_team])]. *)
Definition away_log_theta (p : Params) (h a : nat) : option Q :=
  match alpha p !! a, delta p !! h with
  | Some aa, Some dh => Some (mu p + aa + dh)
  | _, _ => None
  end.

(** The expected scores, the Poisson rates of the likelihoods. *)
Definition home_theta (p : Params) (h a : nat) : option R :=
  (fun l => exp (Q2R l)) <$> home_log_theta p h a.

Definition away_theta (p : Params) (h a : nat) : option R :=
  (fun l => exp (Q2R l)) <$> away_log_theta p h a.

(** The notebook's formulas for the same quantities:
    log(theta_g1) = mu + eta + alpha*_h + delta*_a and
    log(theta_g2) = mu + alpha*_a + delta*_h. *)
Definition home_log_theta_formula (p : Params) (h a : nat) : option Q :=
  match center (alpha p) !! h, center (delta p) !! a with
  | Some ah, Some da => Some (mu p + eta p + ah + da)
  | _, _ => None
  end.

Definition away_log_theta_formula (p : Params) (h a : nat) : option Q :=
  match center (alpha p) !! a, center (delta p) !! h with
  | Some aa, Some dh => Some (mu p + aa + dh)
  | _, _ => None
  end.

(** [(home_pred > away_pred).mean()]: the share of the predictive draws in
    which the first score is the larger one. *)
Definition greater_indicator (x y : Z) : Q := if (y <? x)%Z then 1 else 0.

Definition share_greater (xs ys : list Z) : Q :=
  mean (zip_with greater_indicator xs ys).

End Rugby.

(** ** The changepoint model (pymc_intro.ipynb) *)

Module Changepoint.

(** [r = pm.math.switch(tau >= day_ind, mu[0], mu[1])]: one mean per
    pitch, chosen by the day of the pitch. *)
Definition switch_mean (tau : Q) (mu0 mu1 : Q) (day : Z) : Q :=
  if Qle_bool (inject_Z day) tau then mu0 else mu1.

Definition r (tau : Q) (day_ind : list Z) (mu0 mu1 : Q) : list Q :=
  map (switch_mean tau mu0 mu1) day_ind.

(** The notebook's formula: r_t = mu_1 if t < tau, mu_2 if t >= tau. *)
Definition r_formula (tau : Q) (mu1 mu2 : Q) (t : Z) : Q :=
  if Qltb (inject_Z t) tau then mu1 else mu2.

End Changepoint.

(** ** Momentum reversal *)

(** The momentum with every component negated. *)
Definition vneg (p : Hamiltonian.Vec) : Hamiltonian.Vec :=
  map (fun x => Qred (- x)) p.

Definition flip (z : Hamiltonian.PhasePoint) : Hamiltonian.PhasePoint :=
  Hamiltonian.mkPoint (Hamiltonian.position z) (vneg (Hamiltonian.momentum z)).

(** A vector whose components are all in lowest terms, as every vector
    produced by the vector operations is. *)
Definition reduced (v : Hamiltonian.Vec) : Prop :=
  Forall (fun x => Qred x = x) v.

(** A point strictly inside the support of a bounded variable. *)
Definition strictly_inside (s : Transform.Support) (x : R) : Prop :=
  match s with
  | Transform.RealLine => True
  | Transform.LowerBounded a => (a < x)%R
  | Transform.UpperBounded b => (x < b)%R
  | Transform.Bounded a b => (a < x < b)%R
  end.

(** The number of draws held by the chains of an ensemble of workers. *)
Definition draws_held (e : list Orchestrator.Worker) : list nat :=
  map (fun w => length (Metropolis.trace (Orchestrator.worker_chain w))) e.

(** ** The states a NUTS expansion simulates *)

(** Modelled from the spec: every leapfrog state simulated by the doubling
    loop [Hamiltonian.expand], doubling by doubling, the states of a
    discarded extension included; it follows the loop branch by branch. *)
Fixpoint nuts_simulated (potential : Hamiltonian.Vec -> Q)
    (grad_potential : Hamiltonian.Vec -> Hamiltonian.Vec)
    (cfg : Hamiltonian.Config) (fuel : nat) (dirs : nat -> bool) (h0 : Q)
    (t : Hamiltonian.Tree) : list Hamiltonian.PhasePoint :=
  match fuel with
  | O => []
  | S k =>
      let depth := Hamiltonian.doublings t in
      let forward := dirs depth in
      let sub :=
        Hamiltonian.build_tree potential grad_potential cfg depth forward h0
          (if forward then Hamiltonian.rightmost t else Hamiltonian.leftmost t) in
      if Hamiltonian.sub_diverged sub
      then Hamiltonian.points sub
      else if Hamiltonian.sub_turning sub
      then Hamiltonian.points sub
      else
        let t' :=
          if forward
          then Hamiltonian.mkTree (Hamiltonian.leftmost t) (Hamiltonian.last_point sub)
                 (Hamiltonian.candidates t ++ Hamiltonian.points sub) (S depth)
          else Hamiltonian.mkTree (Hamiltonian.last_point sub) (Hamiltonian.rightmost t)
                 (Hamiltonian.candidates t ++ Hamiltonian.points sub) (S depth) in
        if Hamiltonian.uturn (Hamiltonian.leftmost t') (Hamiltonian.rightmost t')
        then Hamiltonian.points sub
        else Hamiltonian.points sub
             ++ nuts_simulated potential grad_potential cfg k dirs h0 t'
  end.

(** ** A draw of a whole model *)

(** What a draw of a model stores: the entries of each of its free
    variables [vs] for the sampled values [ys] of their value variables. *)
Definition record_model_draw (vs : list Transform.RandomVariable) (ys : list R)
    : list Transform.Entry :=
  concat (zip_with Transform.record_draw vs ys).

(* ===================================================================== *)
(** * Properties *)
(* ===================================================================== *)

(** ** Rational sums *)

Example mean_ex : mean [1; 2; 3] == 2.
Proof. reflexivity. Qed.

Lemma sumQ_app (xs ys : list Q) : sumQ (xs ++ ys) == sumQ xs + sumQ ys.
Proof.
  induction xs as [|x xs IH]; simpl.
  - ring.
  - rewrite IH. ring.
Qed.

Lemma lenQ_cons {A : Type} (x : A) (xs : list A) : lenQ (x :: xs) == lenQ xs + 1.
Proof.
  unfold lenQ. cbn [length]. rewrite Nat2Z.inj_succ, <- Z.add_1_r.
  rewrite inject_Z_plus. reflexivity.
Qed.

Lemma lenQ_app {A : Type} (xs ys : list A) : lenQ (xs ++ ys) == lenQ xs + lenQ ys.
Proof.
  unfold lenQ. rewrite length_app, Nat2Z.inj_add, inject_Z_plus. reflexivity.
Qed.

Lemma lenQ_nonneg {A : Type} (xs : list A) : 0 <= lenQ xs.
Proof.
  unfold lenQ. change 0 with (inject_Z 0). rewrite <- Zle_Qle. lia.
Qed.

Lemma lenQ_ge {A : Type} (xs : list A) (k : nat) :
  (k <= length xs)%nat -> inject_Z (Z.of_nat k) <= lenQ xs.
Proof.
  intros H. unfold lenQ. rewrite <- Zle_Qle. lia.
Qed.

Lemma sq_nonneg (x : Q) : 0 <= sq x.
Proof. unfold sq. nra. Qed.

Lemma sq_zero (x : Q) : sq x == 0 -> x == 0.
Proof. unfold sq. intros H. nra. Qed.

Lemma sum_sq_dev_nonneg (c : Q) (xs : list Q) : 0 <= sum_sq_dev c xs.
Proof.
  unfold sum_sq_dev. induction xs as [|x xs IH]; simpl.
  - apply Qle_refl.
  - pose proof (sq_nonneg (x - c)). lra.
Qed.

Lemma sum_sq_dev_proper (c d : Q) (xs : list Q) :
  c == d -> sum_sq_dev c xs == sum_sq_dev d xs.
Proof.
  intros H. unfold sum_sq_dev. induction xs as [|x xs IH]; simpl.
  - reflexivity.
  - rewrite IH. unfold sq. rewrite H. reflexivity.
Qed.

(** A sum of squared deviations vanishes only when every draw is the centre. *)
Lemma sum_sq_dev_zero (c : Q) (xs : list Q) :
  sum_sq_dev c xs <= 0 -> Forall (fun x => x == c) xs.
Proof.
  unfold sum_sq_dev. induction xs as [|x xs IH]; simpl; intros H.
  - constructor.
  - pose proof (sq_nonneg (x - c)) as Hx.
    pose proof (sum_sq_dev_nonneg c xs) as Hs. unfold sum_sq_dev in Hs.
    constructor.
    + assert (Hz : sq (x - c) == 0) by lra.
      apply sq_zero in Hz. lra.
    + apply IH. lra.
Qed.

Lemma constant_chain_false (xs : list Q) :
  constant_chain xs = false ->
  exists x y, In x xs /\ In y xs /\ ~ x == y.
Proof.
  destruct xs as [|x r]; simpl; [discriminate|].
  intros H.
  assert (Hex : exists y, In y r /\ Qeq_bool x y = false).
  { induction r as [|y r IH]; simpl in *; [discriminate|].
    destruct (Qeq_bool x y) eqn:E.
    - destruct (IH H) as (z & Hz & Hb). exists z. auto.
    - exists y. auto. }
  destruct Hex as (y & Hy & Hb).
  exists x, y. repeat split; auto.
  intros Heq. apply Qeq_bool_iff in Heq. congruence.
Qed.

(** A chain that moves has a strictly positive sum of squared deviations
    about any centre. *)
Lemma sum_sq_dev_pos (c : Q) (xs : list Q) :
  constant_chain xs = false -> 0 < sum_sq_dev c xs.
Proof.
  intros H. destruct (constant_chain_false xs H) as (x & y & Hx & Hy & Hne).
  destruct (Qlt_le_dec 0 (sum_sq_dev c xs)) as [Hp|Hn]; [exact Hp|].
  exfalso. apply sum_sq_dev_zero in Hn.
  rewrite List.Forall_forall in Hn.
  apply Hne. rewrite (Hn x Hx), (Hn y Hy). reflexivity.
Qed.

(** ** R-hat on duplicated chains *)

Example rhat_ratio_ex : Diagnostics.rhat_ratio [[0; 1]; [0; 1]] == 1 # 2.
Proof. reflexivity. Qed.

Example rhat_ratio_ex2 :
  Diagnostics.rhat_ratio [[0; 1; 2]; [2; 3; 7]] == 43 # 24.
Proof. vm_compute. reflexivity. Qed.

Section RhatDuplicated.

Import Diagnostics.

Variable xs : list Q.
Hypothesis Hlen : (2 <= length xs)%nat.
Hypothesis Hmoves : constant_chain xs = false.

Let n := lenQ xs.

Lemma dup_n_ge_2 : 2 <= n.
Proof. apply (lenQ_ge xs 2 Hlen). Qed.

Lemma dup_grand_mean : grand_mean [xs; xs] == mean xs.
Proof.
  pose proof dup_n_ge_2 as Hn. unfold grand_mean, mean. simpl concat.
  rewrite app_nil_r, sumQ_app, lenQ_app. fold n. field. lra.
Qed.

Lemma dup_between : between_chain_variance [xs; xs] == 0.
Proof.
  unfold between_chain_variance. cbn [map sumQ].
  assert (Hz : sq (mean xs - grand_mean [xs; xs]) == 0).
  { unfold sq. rewrite dup_grand_mean. ring. }
  rewrite Hz. unfold num_chains, chain_length, lenQ. simpl. field.
Qed.

Lemma dup_chain_variance_pos : 0 < chain_variance xs.
Proof.
  pose proof dup_n_ge_2 as Hn.
  pose proof (sum_sq_dev_pos (mean xs) xs Hmoves) as Hp.
  unfold chain_variance. fold n.
  assert (Hinv : 0 < 1 / (n - 1)).
  { apply Qlt_shift_div_l; lra. }
  nra.
Qed.

Lemma dup_within : within_chain_variance [xs; xs] == chain_variance xs.
Proof.
  unfold within_chain_variance, num_chains, lenQ. cbn [map sumQ length].
  simpl inject_Z. field.
Qed.

Lemma dup_ratio : rhat_ratio [xs; xs] == (n - 1) / n.
Proof.
  pose proof dup_n_ge_2 as Hn. pose proof dup_chain_variance_pos as Hv.
  unfold rhat_ratio, var_hat. rewrite dup_between, dup_within.
  cbn [chain_length]. fold n. field. split; lra.
Qed.

End RhatDuplicated.

Lemma Q2R_half : Q2R (1 # 2) = (1 / 2)%R.
Proof. unfold Q2R. simpl. lra. Qed.

Lemma sqrt_lt_bound (x b : R) : (0 <= x)%R -> (0 < b)%R -> (x < b * b)%R -> (sqrt x < b)%R.
Proof.
  intros Hx Hb Hlt.
  rewrite <- (sqrt_square b) by lra.
  apply sqrt_lt_1_alt. lra.
Qed.

Lemma sqrt_gt_bound (x b : R) : (0 <= b)%R -> (b * b < x)%R -> (b < sqrt x)%R.
Proof.
  intros Hb Hlt.
  rewrite <- (sqrt_square b) at 1 by lra.
  apply sqrt_lt_1_alt. nra.
Qed.

Lemma sqrt_eq_1_iff (x : R) : sqrt x = 1%R <-> x = 1%R.
Proof.
  split; intros H.
  - destruct (Rle_or_lt 0 x) as [H0|H0].
    + rewrite <- (sqrt_sqrt x H0), H. lra.
    + rewrite sqrt_neg_0 in H by lra. lra.
  - rewrite H. apply sqrt_1.
Qed.

(** R-hat squared against 1: the gap is (B - W) / (n W). *)
Lemma rhat_ratio_gap (chains : list (list Q)) :
  1 <= Diagnostics.chain_length chains ->
  0 < Diagnostics.within_chain_variance chains ->
  Diagnostics.rhat_ratio chains
  == (Diagnostics.chain_length chains - 1) / Diagnostics.chain_length chains
     + Diagnostics.between_chain_variance chains
       / (Diagnostics.chain_length chains * Diagnostics.within_chain_variance chains) /\
  Diagnostics.rhat_ratio chains - 1
  == (Diagnostics.between_chain_variance chains
      - Diagnostics.within_chain_variance chains)
     / (Diagnostics.chain_length chains * Diagnostics.within_chain_variance chains).
Proof.
  intros Hn HW. unfold Diagnostics.rhat_ratio, Diagnostics.var_hat. cbv zeta.
  set (n := Diagnostics.chain_length chains) in *.
  set (W := Diagnostics.within_chain_variance chains) in *.
  set (B := Diagnostics.between_chain_variance chains) in *.
  clearbody n W B. split; field; split; lra.
Qed.

Section SplitDuplicated.

Import Diagnostics.

(** The two halves of the duplicated chain. *)
Variable h1 h2 : list Q.
Hypothesis Hhalves : length h1 = length h2.
Hypothesis Hlen : (2 <= length h1)%nat.

Let n := lenQ h1.

Lemma split_n_ge_2 : 2 <= n.
Proof. apply (lenQ_ge h1 2 Hlen). Qed.

Lemma split_lenQ_h2 : lenQ h2 = n.
Proof. unfold n, lenQ. rewrite Hhalves. reflexivity. Qed.

Lemma split_chain_halves : split_chain (h1 ++ h2) = [h1; h2].
Proof.
  unfold split_chain. cbv zeta.
  assert (Hh : (length (h1 ++ h2) / 2 = length h1)%nat).
  { rewrite length_app, <- Hhalves.
    replace (length h1 + length h1)%nat with (length h1 * 2)%nat by lia.
    apply Nat.div_mul. lia. }
  rewrite Hh, take_app_length, drop_app_length. reflexivity.
Qed.

Lemma split_duplicated : split_chains [h1 ++ h2; h1 ++ h2] = [h1; h2; h1; h2].
Proof.
  unfold split_chains. cbn [map concat]. rewrite split_chain_halves. reflexivity.
Qed.

Lemma split_grand_mean :
  grand_mean [h1; h2; h1; h2] == (mean h1 + mean h2) / 2.
Proof.
  pose proof split_n_ge_2 as Hn.
  unfold grand_mean, mean. cbn [concat].
  rewrite app_nil_r, !sumQ_app, !lenQ_app, split_lenQ_h2. fold n. field. lra.
Qed.

Lemma split_between :
  between_chain_variance [h1; h2; h1; h2] == n * sq (mean h1 - mean h2) / 3.
Proof.
  unfold between_chain_variance. cbv zeta. cbn [map sumQ chain_length].
  fold n. unfold sq. rewrite split_grand_mean.
  unfold num_chains, lenQ. cbn [length]. simpl inject_Z. field.
Qed.

Lemma split_chain_length : chain_length [h1; h2; h1; h2] = n.
Proof. reflexivity. Qed.

End SplitDuplicated.

(** C1 (as amended): (a) on two identical pseudo-chains of a moving draw
    sequence of length n >= 2 the between-chain variance is 0 and R-hat is
    sqrt ((n - 1) / n), strictly below 1; (b) the split R-hat of two
    identical chains h1 ++ h2 with halves of equal length n >= 2 is computed
    over the pseudo-chains h1, h2, h1, h2: there B = n (m1 - m2)^2 / 3 for
    the half means m1 and m2, R-hat is sqrt ((n-1)/n + B / (n W)), which is
    1 exactly when B = W, and when the halves have equal means B is 0 and
    R-hat is again sqrt ((n - 1) / n), strictly below 1. *)
Theorem rhat_identical_chains (xs h1 h2 : list Q) :
  (2 <= length xs)%nat ->
  constant_chain xs = false ->
  length h1 = length h2 ->
  (2 <= length h1)%nat ->
  0 < Diagnostics.within_chain_variance [h1; h2; h1; h2] ->
  (Diagnostics.between_chain_variance [xs; xs] == 0 /\
   Diagnostics.rhat [xs; xs] = sqrt (Q2R ((lenQ xs - 1) / lenQ xs)) /\
   (Diagnostics.rhat [xs; xs] < 1)%R) /\
  Diagnostics.split_chains [h1 ++ h2; h1 ++ h2] = [h1; h2; h1; h2] /\
  Diagnostics.between_chain_variance (Diagnostics.split_chains [h1 ++ h2; h1 ++ h2])
  == lenQ h1 * sq (mean h1 - mean h2) / 3 /\
  Diagnostics.split_rhat [h1 ++ h2; h1 ++ h2]
  = sqrt (Q2R ((lenQ h1 - 1) / lenQ h1
               + Diagnostics.between_chain_variance [h1; h2; h1; h2]
                 / (lenQ h1 * Diagnostics.within_chain_variance [h1; h2; h1; h2]))) /\
  (mean h1 == mean h2 ->
   Diagnostics.between_chain_variance [h1; h2; h1; h2] == 0 /\
   Diagnostics.split_rhat [h1 ++ h2; h1 ++ h2]
   = sqrt (Q2R ((lenQ h1 - 1) / lenQ h1)) /\
   (Diagnostics.split_rhat [h1 ++ h2; h1 ++ h2] < 1)%R) /\
  (Diagnostics.split_rhat [h1 ++ h2; h1 ++ h2] = 1%R
   <-> Diagnostics.between_chain_variance [h1; h2; h1; h2]
       == Diagnostics.within_chain_variance [h1; h2; h1; h2]).
Proof.
  intros Hlen Hmoves Hhalves Hlen1 HW.
  assert (Hbelow : forall k : Q, 2 <= k ->
             (sqrt (Q2R ((k - 1) / k)) < 1)%R).
  { intros k Hk.
    assert (H0 : 0 <= (k - 1) / k) by (apply Qle_shift_div_l; lra).
    assert (H1 : (k - 1) / k < 1) by (apply Qlt_shift_div_r; lra).
    apply Qle_Rle in H0. apply Qlt_Rlt in H1.
    rewrite RMicromega.Q2R_0 in H0. rewrite RMicromega.Q2R_1 in H1.
    apply sqrt_lt_bound; lra. }
  split.
  { pose proof (dup_n_ge_2 xs Hlen) as Hn.
    pose proof (dup_ratio xs Hlen Hmoves) as Hr.
    split; [apply (dup_between xs Hlen)|].
    unfold Diagnostics.rhat. rewrite (Qeq_eqR _ _ Hr).
    split; [reflexivity | apply Hbelow; exact Hn]. }
  pose proof (split_n_ge_2 h1 Hlen1) as Hn.
  pose proof (split_between h1 h2 Hhalves Hlen1) as HB.
  assert (Hn1 : 1 <= Diagnostics.chain_length [h1; h2; h1; h2]).
  { rewrite split_chain_length. lra. }
  destruct (rhat_ratio_gap [h1; h2; h1; h2] Hn1 HW) as [Hdec Hgap].
  rewrite split_chain_length in Hdec, Hgap.
  unfold Diagnostics.split_rhat, Diagnostics.rhat.
  rewrite (split_duplicated h1 h2 Hhalves Hlen1).
  set (B := Diagnostics.between_chain_variance [h1; h2; h1; h2]) in *.
  set (W := Diagnostics.within_chain_variance [h1; h2; h1; h2]) in *.
  set (ratio := Diagnostics.rhat_ratio [h1; h2; h1; h2]) in *.
  set (k := lenQ h1) in *.
  assert (HkW : 0 < k * W) by nra.
  split; [reflexivity|]. split; [exact HB|].
  split; [rewrite (Qeq_eqR _ _ Hdec); reflexivity|]. split.
  - intros Hm.
    assert (HB0 : B == 0).
    { rewrite HB. unfold sq. rewrite Hm. field. }
    assert (Hr : ratio == (k - 1) / k).
    { rewrite Hdec, HB0. field. split; lra. }
    split; [exact HB0|]. rewrite (Qeq_eqR _ _ Hr).
    split; [reflexivity | apply Hbelow; exact Hn].
  - rewrite sqrt_eq_1_iff, <- RMicromega.Q2R_1. split.
    + intros H. apply eqR_Qeq in H.
      assert (Hz : (B - W) / (k * W) == 0) by (rewrite <- Hgap, H; ring).
      assert (Hmul : (B - W) / (k * W) * (k * W) == B - W) by (field; lra).
      rewrite Hz in Hmul. lra.
    + intros H. apply Qeq_eqR.
      assert (Hz : (B - W) / (k * W) == 0) by (rewrite H; field; lra).
      rewrite Hz in Hgap. lra.
Qed.

Lemma rhat_identical_chains_witness :
  (Diagnostics.between_chain_variance [[0; 1; 3]; [0; 1; 3]] == 0 /\
   Diagnostics.rhat [[0; 1; 3]; [0; 1; 3]]
   = sqrt (Q2R ((lenQ [0; 1; 3] - 1) / lenQ [0; 1; 3])) /\
   (Diagnostics.rhat [[0; 1; 3]; [0; 1; 3]]%Q < 1)%R) /\
  Diagnostics.split_chains [[0; 1] ++ [2; 3]; [0; 1] ++ [2; 3]]
  = [[0; 1]; [2; 3]; [0; 1]; [2; 3]].
Proof.
  pose proof (rhat_identical_chains [0; 1; 3] [0; 1] [2; 3]) as H.
  destruct H as (Ha & Hb & _).
  - simpl. lia.
  - reflexivity.
  - reflexivity.
  - simpl. lia.
  - reflexivity.
  - split; [exact Ha | exact Hb].
Defined.

(** C1 (as stated) fails: the draws 0, 1 duplicated into two identical chains
    have between-chain variance 0, and their R-hat is sqrt (1/2), below 3/4;
    so do the four halves 0,1 of the chain 0,1,0,1 duplicated, over which the
    split R-hat is computed. *)
Lemma rhat_identical_chains_not_one :
  (2 <= length [0; 1])%nat /\
  constant_chain [0; 1] = false /\
  Diagnostics.between_chain_variance [[0; 1]; [0; 1]] == 0 /\
  Diagnostics.rhat [[0; 1]; [0; 1]] <> 1%R /\
  (Diagnostics.rhat [[0; 1]; [0; 1]]%Q < 3 / 4)%R /\
  Diagnostics.between_chain_variance
    (Diagnostics.split_chains [[0; 1; 0; 1]; [0; 1; 0; 1]]) == 0 /\
  (Diagnostics.split_rhat [[0; 1; 0; 1]; [0; 1; 0; 1]]%Q < 3 / 4)%R.
Proof.
  assert (Hlt : (Diagnostics.rhat [[0; 1]; [0; 1]]%Q < 3 / 4)%R).
  { unfold Diagnostics.rhat.
    rewrite (Qeq_eqR _ (1 # 2)) by reflexivity.
    rewrite Q2R_half. apply sqrt_lt_bound; lra. }
  assert (Hsplit : (Diagnostics.split_rhat [[0; 1; 0; 1]; [0; 1; 0; 1]]%Q < 3 / 4)%R).
  { unfold Diagnostics.split_rhat, Diagnostics.rhat.
    rewrite (Qeq_eqR _ (1 # 2)) by reflexivity.
    rewrite Q2R_half. apply sqrt_lt_bound; lra. }
  split; [simpl; lia|]. split; [reflexivity|]. split; [reflexivity|].
  split; [lra|]. split; [exact Hlt|]. split; [reflexivity | exact Hsplit].
Qed.

(** Splitting does not rescue the claim either: the two halves of 0,1,2,3
    have different means, and the split R-hat of the duplicated chain
    exceeds 1. *)
Lemma split_rhat_duplicated_above_one :
  (1 < Diagnostics.split_rhat [[0; 1; 2; 3]; [0; 1; 2; 3]]%Q)%R.
Proof.
  unfold Diagnostics.split_rhat, Diagnostics.rhat.
  rewrite (Qeq_eqR _ (19 # 6)) by reflexivity.
  apply sqrt_gt_bound; [lra|].
  unfold Q2R. simpl. lra.
Qed.

(** ** BFMI *)

Example bfmi_ex : Diagnostics.bfmi [0; 1; 2] == 1.
Proof. reflexivity. Qed.

Example bfmi_ex2 : Diagnostics.bfmi [3; 1; 2; 2] == 5 # 2.
Proof. reflexivity. Qed.

Example bfmi_report_ex :
  map Diagnostics.bfmi_warning (Diagnostics.bfmi_report [[0; 1; 2]; [0; 1; 2; 3; 4; 5]])
  = [false; true].
Proof. reflexivity. Qed.

Lemma sum_sq_dev_expand (c : Q) (xs : list Q) :
  sum_sq_dev c xs == sumQ (map sq xs) - 2 * c * sumQ xs + lenQ xs * sq c.
Proof.
  unfold sum_sq_dev. induction xs as [|x xs IH].
  - simpl. unfold lenQ. simpl. unfold sq. ring.
  - cbn [map sumQ]. rewrite IH, lenQ_cons. unfold sq. ring.
Qed.

(** The raw second moment is the centred one plus the squared mean. *)
Lemma sum_squares_decompose (xs : list Q) :
  (1 <= length xs)%nat ->
  sumQ (map sq xs) == lenQ xs * (Diagnostics.variance xs + sq (mean xs)).
Proof.
  intros Hlen. assert (Hn : 1 <= lenQ xs) by apply (lenQ_ge xs 1 Hlen).
  unfold Diagnostics.variance. rewrite sum_sq_dev_expand.
  unfold mean, sq. field. lra.
Qed.

Lemma length_diffs (E : list Q) : length (Diagnostics.diffs E) = (length E - 1)%nat.
Proof.
  induction E as [|e0 r IH]; [reflexivity|].
  destruct r as [|e1 r']; [reflexivity|].
  cbn [Diagnostics.diffs length] in *. rewrite IH. lia.
Qed.

Lemma lenQ_diffs (E : list Q) :
  (1 <= length E)%nat -> lenQ (Diagnostics.diffs E) == lenQ E - 1.
Proof.
  intros H. unfold lenQ. rewrite length_diffs.
  rewrite Nat2Z.inj_sub by lia. unfold Z.sub, Qminus.
  rewrite inject_Z_plus, inject_Z_opp. reflexivity.
Qed.

Lemma low_bfmi_spec (b : Q) :
  Diagnostics.low_bfmi b = true <-> b < Diagnostics.bfmi_threshold.
Proof.
  unfold Diagnostics.low_bfmi. rewrite negb_true_iff.
  destruct (Qle_bool Diagnostics.bfmi_threshold b) eqn:E.
  - apply Qle_bool_iff in E. split; [discriminate | intros H; lra].
  - split; [intros _ | reflexivity].
    destruct (Qlt_le_dec b Diagnostics.bfmi_threshold) as [Hlt|Hle]; [exact Hlt|].
    apply Qle_bool_iff in Hle. congruence.
Qed.

(** C4 (as amended): the BFMI estimate of a moving energy trace E_1..E_N is
    the sum of the squared successive differences over the sum of the squared
    deviations from the mean; in terms of variances it is
    (N-1)/N * (Var(dE) + mean(dE)^2) / Var(E).  The report has one entry per
    chain, each carrying the value and a warning flag that is set exactly
    when the value is below 0.3; nothing else happens on a low value. *)
Theorem bfmi_estimate (E : list Q) (energies : list (list Q)) :
  (2 <= length E)%nat ->
  constant_chain E = false ->
  Diagnostics.bfmi E
  == sumQ (map sq (Diagnostics.diffs E)) / sum_sq_dev (mean E) E /\
  Diagnostics.bfmi E
  == (lenQ E - 1) / lenQ E
     * ((Diagnostics.variance (Diagnostics.diffs E)
         + sq (mean (Diagnostics.diffs E)))
        / Diagnostics.variance E) /\
  length (Diagnostics.bfmi_report energies) = length energies /\
  (forall (i : nat) (Ei : list Q),
      energies !! i = Some Ei ->
      exists r, Diagnostics.bfmi_report energies !! i = Some r /\
                Diagnostics.bfmi_value r = Diagnostics.bfmi Ei /\
                (Diagnostics.bfmi_warning r = true
                 <-> Diagnostics.bfmi Ei < 3 # 10)).
Proof.
  intros Hlen Hmoves.
  assert (Hn : 2 <= lenQ E) by apply (lenQ_ge E 2 Hlen).
  pose proof (sum_sq_dev_pos (mean E) E Hmoves) as Hpos.
  split; [reflexivity|]. split.
  - unfold Diagnostics.bfmi.
    rewrite (sum_squares_decompose (Diagnostics.diffs E))
      by (rewrite length_diffs; lia).
    rewrite lenQ_diffs by lia.
    change (Diagnostics.variance E) with (sum_sq_dev (mean E) E / lenQ E).
    set (v := Diagnostics.variance (Diagnostics.diffs E) + sq (mean (Diagnostics.diffs E))).
    set (s := sum_sq_dev (mean E) E) in *. set (n := lenQ E) in *.
    clearbody v s n. field. split; lra.
  - split.
    + unfold Diagnostics.bfmi_report. apply length_map.
    + intros i Ei Hi. unfold Diagnostics.bfmi_report.
      rewrite list_lookup_fmap, Hi. simpl. eexists. split; [reflexivity|].
      simpl. split; [reflexivity|]. apply low_bfmi_spec.
Qed.

Lemma bfmi_estimate_witness :
  Diagnostics.bfmi [3; 1; 2; 2]
  == (lenQ [3; 1; 2; 2] - 1) / lenQ [3; 1; 2; 2]
     * ((Diagnostics.variance (Diagnostics.diffs [3; 1; 2; 2])
         + sq (mean (Diagnostics.diffs [3; 1; 2; 2])))
        / Diagnostics.variance [3; 1; 2; 2]).
Proof.
  refine (proj1 (proj2 (bfmi_estimate [3; 1; 2; 2] [[3; 1; 2; 2]] _ _))).
  - simpl. lia.
  - reflexivity.
Defined.

(** C4 (as stated) fails: on the energy trace 0, 1, 2 the estimate is 1,
    while the differences 1, 1 have variance 0, so Var(dE)/Var(E) is 0 with
    either divisor. *)
Lemma bfmi_not_variance_ratio :
  Diagnostics.bfmi [0; 1; 2] == 1 /\
  Diagnostics.bfmi_spec [0; 1; 2] == 0 /\
  Diagnostics.bfmi_spec_sample [0; 1; 2] == 0 /\
  ~ Diagnostics.bfmi [0; 1; 2] == Diagnostics.bfmi_spec [0; 1; 2] /\
  ~ Diagnostics.bfmi [0; 1; 2] == Diagnostics.bfmi_spec_sample [0; 1; 2].
Proof.
  repeat split; try reflexivity; intros H; vm_compute in H; discriminate.
Qed.

(* ===================================================================== *)
(** ** Metropolis sampling *)
(* ===================================================================== *)

Example metropolis_accept_ex :
  Metropolis.step Metropolis.half_line_target 1 (1 # 2) (9 # 10) = 1 # 2.
Proof. reflexivity. Qed.

Example metropolis_reject_ex :
  Metropolis.step Metropolis.half_line_target 1 3 (9 # 10) = 1.
Proof. reflexivity. Qed.

Example metropolis_out_of_support_ex :
  Metropolis.step Metropolis.half_line_target 1 (- (1)) (1 # 1000) = 1.
Proof. reflexivity. Qed.

Example metropolis_run_ex :
  map Metropolis.draw_position
    (Metropolis.trace
       (Metropolis.run Metropolis.half_line_target (Metropolis.random_walk 1)
          (Metropolis.mkChain 1 [])
          [(- (1 # 2), 9 # 10); (- (1), 1 # 2); (2, 1 # 10)]))
  = [1 # 2; 1 # 2; 5 # 2].
Proof. reflexivity. Qed.

Lemma xlog_pos (q : Q) : 0 < q -> xlog q = Fin (ln (Q2R q)).
Proof.
  intros H. unfold xlog. destruct (Qlt_le_dec 0 q) as [_|Hle]; [reflexivity|lra].
Qed.

Lemma xlog_nonpos (q : Q) : q <= 0 -> xlog q = NegInf.
Proof.
  intros H. unfold xlog. destruct (Qlt_le_dec 0 q) as [Hlt|_]; [lra|reflexivity].
Qed.

Lemma Q2R_pos (q : Q) : 0 < q -> (0 < Q2R q)%R.
Proof. intros H. apply Qlt_Rlt in H. rewrite RMicromega.Q2R_0 in H. exact H. Qed.

Lemma ln_lt_iff (a b : R) : (0 < a)%R -> (0 < b)%R -> (ln a < ln b)%R <-> (a < b)%R.
Proof.
  intros Ha Hb. split.
  - apply ln_lt_inv; assumption.
  - apply ln_increasing; assumption.
Qed.

Section MetropolisFacts.

Variable State : Type.
Variable pi : State -> Q.

Local Abbreviation acceptance := (Metropolis.acceptance pi).
Local Abbreviation accepts := (Metropolis.accepts pi).
Local Abbreviation step := (Metropolis.step pi).
Local Abbreviation log_density := (Metropolis.log_density pi).
Local Abbreviation acceptance_log_ratio := (Metropolis.acceptance_log_ratio pi).
Local Abbreviation accepts_log := (Metropolis.accepts_log pi).
Local Abbreviation sample_step := (Metropolis.sample_step pi).

Lemma accepts_true_iff (cand cur : State) (u : Q) :
  accepts cand cur u = true <-> u < acceptance cand cur.
Proof.
  unfold Metropolis.accepts. rewrite negb_true_iff.
  destruct (Qle_bool (acceptance cand cur) u) eqn:E.
  - apply Qle_bool_iff in E. split; [discriminate | intros H; lra].
  - split; [intros _ | reflexivity].
    destruct (Qlt_le_dec u (acceptance cand cur)) as [Hlt|Hle]; [exact Hlt|].
    apply Qle_bool_iff in Hle. congruence.
Qed.

Lemma acceptance_pos (cand cur : State) :
  0 < pi cur -> 0 < pi cand -> 0 < acceptance cand cur.
Proof.
  intros Hc Hd. unfold Metropolis.acceptance. apply Qlt_shift_div_l; lra.
Qed.

Lemma acceptance_nonpos (cand cur : State) :
  0 < pi cur -> pi cand <= 0 -> acceptance cand cur <= 0.
Proof.
  intros Hc Hd. unfold Metropolis.acceptance. apply Qle_shift_div_r; lra.
Qed.

(** The log of the acceptance probability is the difference of the
    log-densities. *)
Lemma alr_is_log_acceptance (cand cur : State) :
  0 < pi cur ->
  acceptance_log_ratio cand cur = xlog (acceptance cand cur).
Proof.
  intros Hc. unfold Metropolis.acceptance_log_ratio, Metropolis.log_density.
  rewrite (xlog_pos (pi cur) Hc).
  destruct (Qlt_le_dec 0 (pi cand)) as [Hd|Hd].
  - rewrite (xlog_pos (pi cand) Hd).
    rewrite (xlog_pos _ (acceptance_pos cand cur Hc Hd)).
    simpl. f_equal. unfold Metropolis.acceptance.
    pose proof (Q2R_pos _ Hc) as Hc'. pose proof (Q2R_pos _ Hd) as Hd'.
    rewrite Q2R_div by lra.
    unfold Rdiv. rewrite ln_mult, ln_Rinv; try assumption.
    + lra.
    + apply Rinv_0_lt_compat. assumption.
  - rewrite (xlog_nonpos (pi cand) Hd).
    rewrite (xlog_nonpos _ (acceptance_nonpos cand cur Hc Hd)). reflexivity.
Qed.

Lemma accepts_iff_log (cand cur : State) (u : Q) :
  0 < u -> 0 < pi cur ->
  accepts cand cur u = true <-> accepts_log cand cur u.
Proof.
  intros Hu Hc. rewrite accepts_true_iff. unfold Metropolis.accepts_log.
  rewrite (alr_is_log_acceptance cand cur Hc), (xlog_pos u Hu).
  destruct (Qlt_le_dec 0 (pi cand)) as [Hd|Hd].
  - pose proof (acceptance_pos cand cur Hc Hd) as Ha.
    rewrite (xlog_pos _ Ha). simpl.
    rewrite ln_lt_iff by (apply Q2R_pos; assumption).
    split; [apply Qlt_Rlt | apply Rlt_Qlt].
  - pose proof (acceptance_nonpos cand cur Hc Hd) as Ha.
    rewrite (xlog_nonpos _ Ha). simpl. split; [intros H; lra | tauto].
Qed.

End MetropolisFacts.

Lemma run_length {State Noise : Type} (pi : State -> Q)
    (propose : State -> Noise -> State)
    (c : Metropolis.Chain State) (rng : list (Noise * Q)) :
  length (Metropolis.trace (Metropolis.run pi propose c rng))
  = (length (Metropolis.trace c) + length rng)%nat.
Proof.
  revert c. induction rng as [|[z u] rest IH]; intros c; simpl.
  - lia.
  - rewrite IH. simpl. rewrite length_app. simpl. lia.
Qed.

Lemma is_finite_log_density {State : Type} (pi : State -> Q) (x : State) :
  is_finite (Metropolis.log_density pi x) <-> 0 < pi x.
Proof.
  unfold Metropolis.log_density, xlog.
  destruct (Qlt_le_dec 0 (pi x)) as [H|H]; simpl; split; intros H'; try tauto; lra.
Qed.

(** C3: for a chain state (of positive density), a candidate and a uniform
    variate u > 0 (in particular u in (0,1]), the step accepts the candidate exactly when
    log u < acceptance_log_ratio, and otherwise keeps the current state; either
    way exactly one draw, holding the resulting state, is appended to the
    trace. *)
Theorem metropolis_step_accept_iff_log {State : Type} (pi : State -> Q)
    (c : Metropolis.Chain State) (cand : State) (u : Q) :
  0 < u ->
  Metropolis.in_support pi (Metropolis.current c) ->
  (Metropolis.accepts pi cand (Metropolis.current c) u = true
   <-> Metropolis.accepts_log pi cand (Metropolis.current c) u) /\
  (Metropolis.accepts_log pi cand (Metropolis.current c) u ->
   Metropolis.current (Metropolis.sample_step pi c cand u) = cand) /\
  (~ Metropolis.accepts_log pi cand (Metropolis.current c) u ->
   Metropolis.current (Metropolis.sample_step pi c cand u) = Metropolis.current c) /\
  exists d : Metropolis.Draw State,
    Metropolis.trace (Metropolis.sample_step pi c cand u) = Metropolis.trace c ++ [d] /\
    Metropolis.draw_position d = Metropolis.current (Metropolis.sample_step pi c cand u) /\
    length (Metropolis.trace (Metropolis.sample_step pi c cand u))
    = S (length (Metropolis.trace c)).
Proof.
  intros Hu Hc. unfold Metropolis.in_support in Hc.
  pose proof (accepts_iff_log State pi cand (Metropolis.current c) u Hu Hc) as Hiff.
  split; [exact Hiff|].
  unfold Metropolis.sample_step, Metropolis.step. cbn [Metropolis.current Metropolis.trace].
  split; [|split].
  - intros Ha. apply Hiff in Ha. rewrite Ha. reflexivity.
  - intros Hn.
    destruct (Metropolis.accepts pi cand (Metropolis.current c) u) eqn:E; [|reflexivity].
    exfalso. apply Hn, Hiff. reflexivity.
  - eexists. split; [reflexivity|]. split; [reflexivity|].
    rewrite length_app. simpl. lia.
Qed.

Lemma metropolis_step_accept_iff_log_witness :
  Metropolis.accepts Metropolis.half_line_target 3 1 (9 # 10) = true
  <-> Metropolis.accepts_log Metropolis.half_line_target 3 1 (9 # 10).
Proof.
  refine (proj1 (metropolis_step_accept_iff_log Metropolis.half_line_target
                   (Metropolis.mkChain 1 []) 3 (9 # 10) _ _)).
  - reflexivity.
  - reflexivity.
Defined.

(** C9: for states x and y with finite log-densities the acceptance log
    ratio is antisymmetric, where acceptance_log_ratio(candidate, current) is
    log pi(candidate) - log pi(current), the log of the acceptance
    probability a(candidate, current) of the Metropolis algorithm. *)
Theorem acceptance_log_ratio_antisymmetric {State : Type} (pi : State -> Q)
    (x y : State) :
  is_finite (Metropolis.log_density pi x) ->
  is_finite (Metropolis.log_density pi y) ->
  Metropolis.acceptance_log_ratio pi y x
  = xopp (Metropolis.acceptance_log_ratio pi x y) /\
  Metropolis.acceptance_log_ratio pi y x
  = xminus (Metropolis.log_density pi y) (Metropolis.log_density pi x) /\
  Metropolis.acceptance_log_ratio pi y x = xlog (Metropolis.acceptance pi y x) /\
  is_finite (Metropolis.acceptance_log_ratio pi y x).
Proof.
  intros Hx Hy.
  pose proof (proj1 (is_finite_log_density pi x) Hx) as Hpx.
  split; [|split; [reflexivity|split]].
  - unfold Metropolis.acceptance_log_ratio.
    destruct (Metropolis.log_density pi x), (Metropolis.log_density pi y);
      simpl in *; try contradiction.
    f_equal. lra.
  - apply alr_is_log_acceptance. exact Hpx.
  - unfold Metropolis.acceptance_log_ratio.
    destruct (Metropolis.log_density pi x), (Metropolis.log_density pi y);
      simpl in *; try contradiction. exact I.
Qed.

Lemma acceptance_log_ratio_antisymmetric_witness :
  Metropolis.acceptance_log_ratio Metropolis.half_line_target 3 1
  = xopp (Metropolis.acceptance_log_ratio Metropolis.half_line_target 1 3).
Proof.
  refine (proj1 (acceptance_log_ratio_antisymmetric
                   Metropolis.half_line_target 1 3 _ _));
    apply is_finite_log_density; reflexivity.
Defined.

(** C5: a proposal outside the support of the target has log-density
    -infinity; its acceptance log ratio is -infinity, the step rejects it and
    keeps the current state for every uniform variate, the retained state is
    recorded, and the chain goes on with the rest of its iterations. *)
Theorem out_of_support_proposal_rejected {State Noise : Type} (pi : State -> Q)
    (propose : State -> Noise -> State)
    (c : Metropolis.Chain State) (z : Noise) (u : Q) (rest : list (Noise * Q)) :
  let cur := Metropolis.current c in
  let cand := propose cur z in
  ~ Metropolis.in_support pi cand ->
  Metropolis.in_support pi cur ->
  0 <= u ->
  Metropolis.log_density pi cand = NegInf /\
  Metropolis.acceptance_log_ratio pi cand cur = NegInf /\
  ~ Metropolis.accepts_log pi cand cur u /\
  Metropolis.accepts pi cand cur u = false /\
  Metropolis.step pi cur cand u = cur /\
  Metropolis.run pi propose c ((z, u) :: rest)
  = Metropolis.run pi propose
      (Metropolis.mkChain cur
         (Metropolis.trace c ++ [Metropolis.mkDraw cur (pi cur) false]))
      rest /\
  length (Metropolis.trace (Metropolis.run pi propose c ((z, u) :: rest)))
  = (length (Metropolis.trace c) + 1 + length rest)%nat.
Proof.
  intros cur cand Hout Hin Hu. unfold Metropolis.in_support in *.
  assert (Hd : pi cand <= 0).
  { destruct (Qlt_le_dec 0 (pi cand)); [contradiction | assumption]. }
  assert (Hld : Metropolis.log_density pi cand = NegInf).
  { unfold Metropolis.log_density. apply xlog_nonpos. exact Hd. }
  assert (Halr : Metropolis.acceptance_log_ratio pi cand cur = NegInf).
  { unfold Metropolis.acceptance_log_ratio. rewrite Hld.
    unfold Metropolis.log_density. rewrite (xlog_pos _ Hin). reflexivity. }
  assert (Hacc : Metropolis.accepts pi cand cur u = false).
  { destruct (Metropolis.accepts pi cand cur u) eqn:E; [|reflexivity].
    apply accepts_true_iff in E.
    pose proof (acceptance_nonpos State pi cand cur Hin Hd). lra. }
  assert (Hstep : Metropolis.step pi cur cand u = cur).
  { unfold Metropolis.step. rewrite Hacc. reflexivity. }
  split; [exact Hld|]. split; [exact Halr|]. split.
  { unfold Metropolis.accepts_log. rewrite Halr.
    destruct (xlog u); simpl; tauto. }
  split; [exact Hacc|]. split; [exact Hstep|]. split.
  - cbn [Metropolis.run]. unfold Metropolis.sample_step.
    fold cur. fold cand. rewrite Hstep, Hacc. reflexivity.
  - rewrite run_length. simpl. lia.
Qed.

Lemma out_of_support_proposal_rejected_witness :
  Metropolis.step Metropolis.half_line_target 1
    (Metropolis.random_walk 1 1 (- (2))) (1 # 1000) = 1.
Proof.
  refine (proj1 (proj2 (proj2 (proj2 (proj2
    (out_of_support_proposal_rejected Metropolis.half_line_target
       (Metropolis.random_walk 1) (Metropolis.mkChain 1 []) (- (2)) (1 # 1000)
       [(1, 1 # 2)] _ _ _)))))).
  - intros H. discriminate H.
  - reflexivity.
  - discriminate.
Defined.

(* ===================================================================== *)
(** ** Competence Registry *)
(* ===================================================================== *)

Example assign_ex :
  Registry.assigned
    (Registry.assign_step_methods Registry.example_override Registry.example_vars)
  = [("eta", Registry.NUTS); ("alpha", Registry.Metropolis);
     ("sigma", Registry.NUTS); ("z", Registry.BinaryMetropolis);
     ("tau", Registry.Metropolis)]%string.
Proof. vm_compute. reflexivity. Qed.

Example consulted_ex :
  Registry.consulted
    (Registry.assign_step_methods Registry.example_override Registry.example_vars)
  = ["eta"; "sigma"; "z"; "tau"]%string.
Proof. vm_compute. reflexivity. Qed.

Lemma score_range (c : Registry.Competence) : (Registry.score c <= 3)%nat.
Proof. destruct c; simpl; lia. Qed.

(** The method kept by the scan is at least as competent as the starting
    candidate and as every method scanned. *)
Lemma most_competent_max (d : Registry.Descriptor) (ms : list Registry.StepMethod) :
  forall best,
    (Registry.score (Registry.competence best d)
     <= Registry.score (Registry.competence (Registry.most_competent d best ms) d))%nat /\
    (forall m, In m ms ->
       (Registry.score (Registry.competence m d)
        <= Registry.score (Registry.competence (Registry.most_competent d best ms) d))%nat).
Proof.
  induction ms as [|m rest IH]; intros best; simpl.
  - split; [lia | intros m []].
  - destruct (Nat.ltb_spec (Registry.score (Registry.competence best d))
                           (Registry.score (Registry.competence m d))) as [Hlt|Hge].
    + destruct (IH m) as [H1 H2]. split; [lia|].
      intros m' [<-|Hin]; [exact H1 | exact (H2 m' Hin)].
    + destruct (IH best) as [H1 H2]. split; [exact H1|].
      intros m' [<-|Hin]; [lia | exact (H2 m' Hin)].
Qed.

Lemma step_methods_complete (m : Registry.StepMethod) : In m Registry.step_methods.
Proof. destruct m; simpl; tauto. Qed.

Lemma default_method_is_policy (d : Registry.Descriptor) :
  Registry.default_method d = Registry.default_policy d.
Proof. destruct d as [[] []]; reflexivity. Qed.

Lemma assigned_names (override : gmap string Registry.StepMethod)
    (vars : list (string * Registry.Descriptor)) :
  map fst (Registry.assigned (Registry.assign_step_methods override vars))
  = map fst vars.
Proof.
  induction vars as [|[name d] rest IH]; simpl; [reflexivity|].
  destruct (override !! name); simpl; rewrite IH; reflexivity.
Qed.

Lemma assigned_lookup (override : gmap string Registry.StepMethod)
    (vars : list (string * Registry.Descriptor)) (i : nat)
    (name : string) (d : Registry.Descriptor) :
  vars !! i = Some (name, d) ->
  Registry.assigned (Registry.assign_step_methods override vars) !! i
  = Some (name, default (Registry.default_method d) (override !! name)).
Proof.
  revert i. induction vars as [|[name' d'] rest IH]; intros i Hi; [discriminate|].
  destruct i as [|i]; simpl in *.
  - injection Hi as -> ->. destruct (override !! name); reflexivity.
  - destruct (override !! name'); simpl; apply IH; exact Hi.
Qed.

Lemma consulted_iff (override : gmap string Registry.StepMethod)
    (vars : list (string * Registry.Descriptor)) (name : string) :
  In name (Registry.consulted (Registry.assign_step_methods override vars))
  <-> In name (map fst vars) /\ override !! name = None.
Proof.
  induction vars as [|[name' d'] rest IH]; simpl; [tauto|].
  destruct (override !! name') eqn:E; simpl; rewrite IH.
  - split.
    + intros [H1 H2]. tauto.
    + intros [[->|H1] H2]; [congruence | tauto].
  - split.
    + intros [->|[H1 H2]]; tauto.
    + intros [[->|H1] H2]; tauto.
Qed.

(** C2: the default assignment is a total function of the descriptor and
    follows the default policy (binary: BinaryMetropolis; discrete:
    Metropolis; continuous with gradient: NUTS; continuous without gradient:
    Metropolis); the method chosen has the highest competence score, scores
    lie on the scale 0..3; every variable is assigned exactly once, and the
    registry is consulted exactly for the variables without an explicit
    assignment by the caller. *)
Theorem default_assignment_policy (d : Registry.Descriptor)
    (override : gmap string Registry.StepMethod)
    (vars : list (string * Registry.Descriptor)) :
  Registry.default_method d
  = match Registry.support d with
    | Registry.Binary => Registry.BinaryMetropolis
    | Registry.Discrete => Registry.Metropolis
    | Registry.ContinuousUnbounded | Registry.ContinuousBounded =>
        if Registry.gradient_available d then Registry.NUTS else Registry.Metropolis
    end /\
  (forall m : Registry.StepMethod,
      (Registry.score (Registry.competence m d)
       <= Registry.score (Registry.competence (Registry.default_method d) d)
       <= 3)%nat) /\
  map fst (Registry.assigned (Registry.assign_step_methods override vars))
  = map fst vars /\
  (forall (i : nat) (name : string) (d' : Registry.Descriptor),
      vars !! i = Some (name, d') ->
      Registry.assigned (Registry.assign_step_methods override vars) !! i
      = Some (name, match override !! name with
                    | Some m => m
                    | None => Registry.default_method d'
                    end)) /\
  (forall name : string,
      In name (Registry.consulted (Registry.assign_step_methods override vars))
      <-> In name (map fst vars) /\ override !! name = None).
Proof.
  split; [apply default_method_is_policy|].
  split.
  { intros m. split; [|apply score_range].
    apply (most_competent_max d Registry.step_methods Registry.NUTS).
    apply step_methods_complete. }
  split; [apply assigned_names|].
  split.
  - intros i name d' Hi. rewrite (assigned_lookup override vars i name d' Hi).
    destruct (override !! name); reflexivity.
  - apply consulted_iff.
Qed.

(* ===================================================================== *)
(** ** Auto-transformation *)
(* ===================================================================== *)

Example sigma_value_var_name :
  Transform.vv_name (Transform.value_var Transform.sigma_rv) = "sigma_log__"%string.
Proof. reflexivity. Qed.

(** pm.logp(sigma, -1): minus infinity. *)
Lemma halfnormal_logp_negative :
  Transform.rv_logp Transform.sigma_rv (-1)%R = NegInf.
Proof.
  simpl. unfold Transform.halfnormal_logp.
  destruct (Rle_dec 0 (-1)) as [H|H]; [lra | reflexivity].
Qed.

Lemma halfnormal_logp_finite (sigma x : R) :
  (0 <= x)%R -> is_finite (Transform.halfnormal_logp sigma x).
Proof.
  intros H. unfold Transform.halfnormal_logp.
  destruct (Rle_dec 0 x) as [_|Hn]; [exact I | contradiction].
Qed.

Section TransformFacts.

Local Open Scope R_scope.

Lemma sigmoid_bounds (y : R) : 0 < Transform.sigmoid y < 1.
Proof.
  unfold Transform.sigmoid. pose proof (exp_pos (- y)) as He.
  split.
  - apply Rdiv_lt_0_compat; lra.
  - apply (Rmult_lt_reg_r (1 + exp (- y))); [lra|].
    unfold Rdiv. rewrite Rmult_assoc, Rinv_l by lra. lra.
Qed.

Lemma sigmoid_odds (y : R) :
  Transform.sigmoid y / (1 - Transform.sigmoid y) = exp y.
Proof.
  unfold Transform.sigmoid. rewrite exp_Ropp.
  pose proof (exp_pos y) as He.
  field. split; lra.
Qed.

Lemma backward_in_support (s : Transform.Support) (y : R) :
  Transform.well_formed s -> Transform.in_support s (Transform.backward s y).
Proof.
  destruct s as [|a|b|a b]; simpl; intros Hwf.
  - exact I.
  - pose proof (exp_pos y). lra.
  - pose proof (exp_pos y). lra.
  - pose proof (sigmoid_bounds y) as [H0 H1]. nra.
Qed.

Lemma forward_backward (s : Transform.Support) (y : R) :
  Transform.well_formed s ->
  Transform.forward s (Transform.backward s y) = y.
Proof.
  destruct s as [|a|b|a b]; simpl; intros Hwf.
  - reflexivity.
  - replace (a + exp y - a) with (exp y) by lra. apply ln_exp.
  - replace (b - (b - exp y)) with (exp y) by lra. apply ln_exp.
  - pose proof (sigmoid_bounds y) as [H0 H1].
    transitivity (ln (exp y)); [|apply ln_exp].
    rewrite <- (sigmoid_odds y). f_equal.
    set (t := Transform.sigmoid y) in *. clearbody t.
    field. split; nra.
Qed.

End TransformFacts.

Section TransformCalculus.

Local Open Scope R_scope.

Lemma backward_strictly_inside (s : Transform.Support) (y : R) :
  Transform.well_formed s -> strictly_inside s (Transform.backward s y).
Proof.
  destruct s as [|a|b|a b]; simpl; intros Hwf.
  - exact I.
  - pose proof (exp_pos y). lra.
  - pose proof (exp_pos y). lra.
  - pose proof (sigmoid_bounds y) as [H0 H1]. nra.
Qed.

Lemma strictly_inside_in_support (s : Transform.Support) (x : R) :
  strictly_inside s x -> Transform.in_support s x.
Proof. destruct s; simpl; intros H; try exact I; lra. Qed.

Lemma sigmoid_as_quotient (t : R) :
  (exp / (fct_cte 1 + exp))%F t = Transform.sigmoid t.
Proof.
  unfold div_fct, plus_fct, fct_cte, Transform.sigmoid. rewrite exp_Ropp.
  pose proof (exp_pos t) as He. set (e := exp t) in *. clearbody e.
  field. split; lra.
Qed.

(** The logistic function has derivative sigmoid * (1 - sigmoid). *)
Lemma sigmoid_derivative (y : R) :
  derivable_pt_lim Transform.sigmoid y
    (Transform.sigmoid y * (1 - Transform.sigmoid y)).
Proof.
  apply (derivable_pt_lim_ext (exp / (fct_cte 1 + exp))%F);
    [apply sigmoid_as_quotient|].
  pose proof (exp_pos y) as He.
  replace (Transform.sigmoid y * (1 - Transform.sigmoid y))
    with ((exp y * (fct_cte 1 + exp)%F y - (0 + exp y) * exp y)
          / Rsqr ((fct_cte 1 + exp)%F y)).
  - apply derivable_pt_lim_div.
    + apply derivable_pt_lim_exp.
    + apply derivable_pt_lim_plus; [apply derivable_pt_lim_const|].
      apply derivable_pt_lim_exp.
    + unfold plus_fct, fct_cte. lra.
  - rewrite <- (sigmoid_as_quotient y).
    unfold div_fct, plus_fct, fct_cte, Rsqr.
    set (e := exp y) in *. clearbody e. field. lra.
Qed.

(** The log-Jacobian is the log of the absolute derivative of the
    back-transformation. *)
Lemma backward_derivative (s : Transform.Support) (y : R) :
  Transform.well_formed s ->
  exists d : R,
    derivable_pt_lim (Transform.backward s) y d /\
    Rabs d = exp (Transform.log_jacobian s y).
Proof.
  destruct s as [|a|b|a b]; intros Hwf.
  - exists 1. split.
    + apply (derivable_pt_lim_ext id); [reflexivity | apply derivable_pt_lim_id].
    + simpl. rewrite exp_0. apply Rabs_R1.
  - exists (0 + exp y). split.
    + apply (derivable_pt_lim_ext (fct_cte a + exp)%F); [reflexivity|].
      apply derivable_pt_lim_plus; [apply derivable_pt_lim_const|].
      apply derivable_pt_lim_exp.
    + simpl. pose proof (exp_pos y). rewrite Rabs_right; lra.
  - exists (0 - exp y). split.
    + apply (derivable_pt_lim_ext (fct_cte b - exp)%F); [reflexivity|].
      apply derivable_pt_lim_minus; [apply derivable_pt_lim_const|].
      apply derivable_pt_lim_exp.
    + simpl. pose proof (exp_pos y). rewrite Rabs_left; lra.
  - simpl in Hwf. pose proof (sigmoid_bounds y) as [H0 H1].
    exists (0 + (b - a) * (Transform.sigmoid y * (1 - Transform.sigmoid y))). split.
    + apply (derivable_pt_lim_ext
               (fct_cte a + mult_real_fct (b - a) Transform.sigmoid)%F);
        [reflexivity|].
      apply derivable_pt_lim_plus; [apply derivable_pt_lim_const|].
      apply derivable_pt_lim_scal. apply sigmoid_derivative.
    + cbn [Transform.log_jacobian]. rewrite !exp_plus, !exp_ln by lra.
      assert (Hs : 0 < Transform.sigmoid y * (1 - Transform.sigmoid y)) by nra.
      assert (Hd : 0 < (b - a) * (Transform.sigmoid y * (1 - Transform.sigmoid y))).
      { apply Rmult_lt_0_compat; lra. }
      rewrite Rabs_right; [ring | lra].
Qed.

End TransformCalculus.

(** The summary of a draw of a model lists exactly the model's variables,
    under their own names, and none of the transformed ones. *)
Lemma summary_of_model_draw (vs : list Transform.RandomVariable) (ys : list R) :
  length vs = length ys ->
  map Transform.entry_name (Transform.summary_entries (record_model_draw vs ys))
  = map Transform.rv_name vs /\
  Forall (fun e => Transform.entry_transformed e = false)
         (Transform.summary_entries (record_model_draw vs ys)).
Proof.
  revert ys. induction vs as [|v vs IH]; intros ys Hlen.
  - split; [reflexivity | constructor].
  - destruct ys as [|y ys]; [discriminate|].
    injection Hlen as Hlen. destruct (IH ys Hlen) as [IH1 IH2].
    unfold record_model_draw, Transform.summary_entries in *.
    cbn [zip_with concat]. rewrite filter_app, map_app.
    unfold Transform.record_draw at 1 3.
    destruct (Transform.is_constrained (Transform.rv_support v)).
    + rewrite filter_cons_False by (simpl; discriminate).
      rewrite filter_cons_True by reflexivity.
      rewrite filter_nil. simpl. rewrite IH1. split; [reflexivity|].
      constructor; [reflexivity | exact IH2].
    + rewrite filter_cons_True by reflexivity.
      rewrite filter_nil. simpl. rewrite IH1. split; [reflexivity|].
      constructor; [reflexivity | exact IH2].
Qed.

(** C10: a continuous variable whose support is a proper sub-interval is
    sampled through a transformed value variable defined on the whole real
    line.  Its log-density at y is the variable's own log-density at the
    back-transform of y plus the log-Jacobian, which is the log of the
    absolute derivative of the back-transformation; so it is finite at every
    real y (also where y itself lies outside the original support) as soon
    as the variable's log-density is finite strictly inside its support.  The
    reported draw is the back-transform of y and lies strictly inside the
    original support, the transformation is inverted exactly, and in the
    summary of a draw of any model only the variables' own names appear,
    never a transformed one. *)
Theorem auto_transformed_variable (v : Transform.RandomVariable) (y : R) :
  Transform.is_constrained (Transform.rv_support v) = true ->
  Transform.well_formed (Transform.rv_support v) ->
  (forall x : R, strictly_inside (Transform.rv_support v) x ->
                 is_finite (Transform.rv_logp v x)) ->
  Transform.vv_transformed (Transform.value_var v) = true /\
  Transform.vv_logp (Transform.value_var v) y
  = xplus (Transform.rv_logp v (Transform.backward (Transform.rv_support v) y))
          (Fin (Transform.log_jacobian (Transform.rv_support v) y)) /\
  (exists d : R,
      derivable_pt_lim (Transform.backward (Transform.rv_support v)) y d /\
      Rabs d = exp (Transform.log_jacobian (Transform.rv_support v) y)) /\
  is_finite (Transform.vv_logp (Transform.value_var v) y) /\
  strictly_inside (Transform.rv_support v)
    (Transform.backward (Transform.rv_support v) y) /\
  Transform.in_support (Transform.rv_support v)
    (Transform.backward (Transform.rv_support v) y) /\
  Transform.forward (Transform.rv_support v)
    (Transform.backward (Transform.rv_support v) y) = y /\
  Transform.record_draw v y
  = [Transform.mkEntry (Transform.vv_name (Transform.value_var v)) y true;
     Transform.mkEntry (Transform.rv_name v)
       (Transform.backward (Transform.rv_support v) y) false] /\
  Transform.summary_entries (Transform.record_draw v y)
  = [Transform.mkEntry (Transform.rv_name v)
       (Transform.backward (Transform.rv_support v) y) false] /\
  (forall (vs : list Transform.RandomVariable) (ys : list R),
      length vs = length ys ->
      map Transform.entry_name
        (Transform.summary_entries (record_model_draw vs ys))
      = map Transform.rv_name vs /\
      Forall (fun e => Transform.entry_transformed e = false)
             (Transform.summary_entries (record_model_draw vs ys))).
Proof.
  intros Hc Hwf Hfin.
  pose proof (backward_strictly_inside _ y Hwf) as Hin.
  split; [exact Hc|]. split; [reflexivity|].
  split; [apply backward_derivative; exact Hwf|]. split.
  { simpl. specialize (Hfin _ Hin).
    destruct (Transform.rv_logp v _); simpl in *; try contradiction. exact I. }
  split; [exact Hin|].
  split; [apply strictly_inside_in_support; exact Hin|].
  split; [apply forward_backward; exact Hwf|].
  unfold Transform.record_draw. rewrite Hc.
  split; [reflexivity|]. split; [reflexivity|].
  apply summary_of_model_draw.
Qed.

Lemma auto_transformed_variable_witness :
  Transform.rv_logp Transform.sigma_rv (-1)%R = NegInf /\
  is_finite (Transform.vv_logp (Transform.value_var Transform.sigma_rv) (-1)%R) /\
  strictly_inside (Transform.LowerBounded 0)
    (Transform.backward (Transform.LowerBounded 0) (-1)%R).
Proof.
  split; [apply halfnormal_logp_negative|].
  pose proof (auto_transformed_variable Transform.sigma_rv (-1)%R) as H.
  destruct H as (_ & _ & _ & H1 & H2 & _).
  - reflexivity.
  - exact I.
  - intros x Hx. apply halfnormal_logp_finite. simpl in Hx. lra.
  - split; [exact H1 | exact H2].
Defined.

(* ===================================================================== *)
(** ** Hamiltonian Monte Carlo and NUTS *)
(* ===================================================================== *)

Example hmc_accept_ex :
  let d := Hamiltonian.hmc_transition Hamiltonian.normal_potential
             Hamiltonian.normal_gradient (Hamiltonian.default_config (1 # 2) 3)
             [1] [1 # 2] (- (1 # 10)) in
  (Hamiltonian.draw_position d, Hamiltonian.diverging d, Hamiltonian.accepted d)
  = ([73 # 128], false, true).
Proof. vm_compute. reflexivity. Qed.

Example hmc_divergent_ex :
  let d := Hamiltonian.hmc_transition Hamiltonian.normal_potential
             Hamiltonian.normal_gradient (Hamiltonian.default_config 3 8)
             [1] [1 # 2] (- (1 # 10)) in
  (Hamiltonian.draw_position d, Hamiltonian.diverging d, Hamiltonian.accepted d)
  = ([1], true, false).
Proof. vm_compute. reflexivity. Qed.

Example nuts_max_depth_ex :
  let d := Hamiltonian.nuts_transition Hamiltonian.normal_potential
             Hamiltonian.normal_gradient (Hamiltonian.mkConfig (1 # 100) 0 1000 3)
             Hamiltonian.example_weight [1] [1 # 2] (fun _ => true) (1 # 3) in
  (Hamiltonian.tree_depth d, Hamiltonian.reached_max_treedepth d,
   Hamiltonian.diverging d) = (3%nat, true, false).
Proof. vm_compute. reflexivity. Qed.

Example nuts_divergent_ex :
  let d := Hamiltonian.nuts_transition Hamiltonian.normal_potential
             Hamiltonian.normal_gradient (Hamiltonian.mkConfig 100 0 1000 10)
             Hamiltonian.example_weight [1] [1 # 2] (fun _ => true) (1 # 3) in
  (Hamiltonian.draw_position d, Hamiltonian.tree_depth d,
   Hamiltonian.reached_max_treedepth d, Hamiltonian.diverging d)
  = ([1], 1%nat, false, true).
Proof. vm_compute. reflexivity. Qed.

Section HamiltonianFacts.

Import Hamiltonian.

Variable potential : Vec -> Q.
Variable grad_potential : Vec -> Vec.
Variable cfg : Config.
Variable boltzmann : Q -> Q.

Local Abbreviation within_threshold h0 z :=
  (exceeds_threshold cfg (energy_error potential h0 z) = false).

Lemma hmc_sample_length (q : Vec) (rng : list (Vec * Q)) :
  length (hmc_sample potential grad_potential cfg q rng) = length rng.
Proof.
  revert q. induction rng as [|[p0 logu] rest IH]; intros q; simpl.
  - reflexivity.
  - rewrite IH. reflexivity.
Qed.

Lemma nuts_sample_length (q : Vec) (rng : list (Vec * (nat -> bool) * Q)) :
  length (nuts_sample potential grad_potential cfg boltzmann q rng) = length rng.
Proof.
  revert q. induction rng as [|[[p0 dirs] u] rest IH]; intros q; simpl.
  - reflexivity.
  - rewrite IH. reflexivity.
Qed.

(** A subtree of depth d holds between 1 and 2^d points. *)
Lemma build_tree_size (d : nat) (fwd : bool) (h0 : Q) (z : PhasePoint) :
  (1 <= length (points (build_tree potential grad_potential cfg d fwd h0 z))
   <= 2 ^ d)%nat.
Proof.
  revert z. induction d as [|d IH]; intros z.
  - simpl. lia.
  - cbn [build_tree].
    set (t1 := build_tree potential grad_potential cfg d fwd h0 z).
    pose proof (IH z) as H1. fold t1 in H1.
    destruct (sub_diverged t1 || sub_turning t1).
    + rewrite Nat.pow_succ_r'. lia.
    + cbn [points]. rewrite length_app.
      pose proof (IH (last_point t1)) as H2.
      rewrite Nat.pow_succ_r'. lia.
Qed.

(** The points of a subtree that did not diverge are all within the
    threshold. *)
Lemma build_tree_within (d : nat) (fwd : bool) (h0 : Q) (z : PhasePoint) :
  sub_diverged (build_tree potential grad_potential cfg d fwd h0 z) = false ->
  Forall (fun z' => within_threshold h0 z')
         (points (build_tree potential grad_potential cfg d fwd h0 z)).
Proof.
  revert z. induction d as [|d IH]; intros z.
  - simpl. intros H. constructor; [exact H | constructor].
  - cbn [build_tree].
    set (t1 := build_tree potential grad_potential cfg d fwd h0 z).
    pose proof (IH z) as H1. fold t1 in H1.
    destruct (sub_diverged t1) eqn:Ed; simpl.
    + intros H. fold t1 in H. congruence.
    + destruct (sub_turning t1) eqn:Et; simpl.
      * intros _. apply H1. reflexivity.
      * intros H2. apply Forall_app. split; [apply H1; reflexivity|].
        apply IH. exact H2.
Qed.

(** The doubling loop performs at most [fuel] doublings, exactly [fuel] when
    it stops at the ceiling; the candidates stay within the threshold, never
    exceed 2^doublings, and always contain the candidates it started from. *)
Lemma expand_spec (fuel : nat) (dirs : nat -> bool) (h0 : Q) (t : Tree) :
  let r := expand potential grad_potential cfg fuel dirs h0 t in
  (doublings t <= doublings (fst r) <= doublings t + fuel)%nat /\
  (snd r = MaxTreeDepth -> doublings (fst r) = (doublings t + fuel)%nat) /\
  (fuel = 0%nat -> snd r = MaxTreeDepth) /\
  (Forall (fun z => within_threshold h0 z) (candidates t) ->
   Forall (fun z => within_threshold h0 z) (candidates (fst r))) /\
  ((length (candidates t) <= 2 ^ doublings t)%nat ->
   (length (candidates (fst r)) <= 2 ^ doublings (fst r))%nat) /\
  (forall z, In z (candidates t) -> In z (candidates (fst r))).
Proof.
  revert t. induction fuel as [|k IH]; intros t.
  - simpl. repeat split; auto; lia.
  - cbn [expand].
    set (sub := build_tree potential grad_potential cfg (doublings t)
                  (dirs (doublings t)) h0
                  (if dirs (doublings t) then rightmost t else leftmost t)).
    pose proof (build_tree_size (doublings t) (dirs (doublings t)) h0
                  (if dirs (doublings t) then rightmost t else leftmost t)) as Hsz.
    pose proof (build_tree_within (doublings t) (dirs (doublings t)) h0
                  (if dirs (doublings t) then rightmost t else leftmost t)) as Hin.
    fold sub in Hsz, Hin.
    destruct (sub_diverged sub) eqn:Ed.
    { cbn [fst snd doublings candidates]. repeat split; try lia; try discriminate; auto.
      intros H. rewrite Nat.pow_succ_r'. lia. }
    destruct (sub_turning sub) eqn:Et.
    { cbn [fst snd doublings candidates]. repeat split; try lia; try discriminate; auto.
      intros H. rewrite Nat.pow_succ_r'. lia. }
    set (t' := if dirs (doublings t)
               then mkTree (leftmost t) (last_point sub)
                      (candidates t ++ points sub) (S (doublings t))
               else mkTree (last_point sub) (rightmost t)
                      (candidates t ++ points sub) (S (doublings t))).
    assert (Hd' : doublings t' = S (doublings t)).
    { unfold t'. destruct (dirs (doublings t)); reflexivity. }
    assert (Hc' : candidates t' = candidates t ++ points sub).
    { unfold t'. destruct (dirs (doublings t)); reflexivity. }
    assert (Hstep_within :
              Forall (fun z => within_threshold h0 z) (candidates t) ->
              Forall (fun z => within_threshold h0 z) (candidates t')).
    { intros H. rewrite Hc'. apply Forall_app. split; [exact H | apply Hin; reflexivity]. }
    assert (Hstep_size :
              (length (candidates t) <= 2 ^ doublings t)%nat ->
              (length (candidates t') <= 2 ^ doublings t')%nat).
    { intros H. rewrite Hc', Hd', length_app, Nat.pow_succ_r'. lia. }
    assert (Hstep_in : forall z, In z (candidates t) -> In z (candidates t')).
    { intros z Hz. rewrite Hc'. apply in_or_app. left. exact Hz. }
    destruct (uturn (leftmost t') (rightmost t')) eqn:Eu.
    { cbn [fst snd]. rewrite Hd'.
      repeat split; try lia; try discriminate; auto.
      intros H. apply Hstep_size in H. rewrite Hd' in H. exact H. }
    specialize (IH t'). cbv zeta in IH.
    destruct IH as (I1 & I2 & _ & I4 & I5 & I6).
    rewrite Hd' in I1, I2.
    repeat split; try lia; try discriminate; auto.
    intros H. rewrite (I2 H). lia.
Qed.

Lemma pick_in (h0 u : Q) (fallback : PhasePoint) (pts : list PhasePoint) :
  In (pick potential boltzmann h0 u fallback pts) (fallback :: pts).
Proof.
  revert u fallback. induction pts as [|z rest IH]; intros u fallback; simpl.
  - left. reflexivity.
  - destruct (Qltb u (boltzmann (energy_error potential h0 z))).
    + right. left. reflexivity.
    + destruct (IH (u - boltzmann (energy_error potential h0 z)) z) as [H|H].
      * right. left. exact H.
      * right. right. exact H.
Qed.

End HamiltonianFacts.

(** ** Divergence summary *)

Lemma divergent_indices_from_spec (i : nat) (trace : list Hamiltonian.Draw) (j : nat) :
  In j (Hamiltonian.divergent_indices_from i trace)
  <-> exists (k : nat) (d : Hamiltonian.Draw),
        trace !! k = Some d /\ Hamiltonian.diverging d = true /\ j = (i + k)%nat.
Proof.
  revert i. induction trace as [|d rest IH]; intros i; simpl.
  - split; [intros [] | intros (k & d & H & _); discriminate].
  - assert (Hrest :
      (exists (k : nat) (d' : Hamiltonian.Draw),
          rest !! k = Some d' /\ Hamiltonian.diverging d' = true /\ j = (S i + k)%nat)
      -> exists (k : nat) (d' : Hamiltonian.Draw),
          (d :: rest) !! k = Some d' /\ Hamiltonian.diverging d' = true /\ j = (i + k)%nat).
    { intros (k & d' & H1 & H2 & H3). exists (S k), d'. simpl. repeat split; auto. lia. }
    destruct (Hamiltonian.diverging d) eqn:E; simpl; rewrite ?IH.
    + split.
      * intros [<-|H]; [|exact (Hrest H)].
        exists 0%nat, d. simpl. repeat split; auto.
      * intros (k & d' & H1 & H2 & H3). destruct k as [|k]; simpl in H1.
        -- left. lia.
        -- right. exists k, d'. repeat split; auto. lia.
    + split; [exact Hrest|].
      intros (k & d' & H1 & H2 & H3). destruct k as [|k]; simpl in H1.
      * injection H1 as <-. congruence.
      * exists k, d'. repeat split; auto. lia.
Qed.

Lemma divergent_indices_from_length (i : nat) (trace : list Hamiltonian.Draw) :
  length (Hamiltonian.divergent_indices_from i trace)
  = length (List.filter Hamiltonian.diverging trace).
Proof.
  revert i. induction trace as [|d rest IH]; intros i; simpl; [reflexivity|].
  destruct (Hamiltonian.diverging d); simpl; rewrite IH; reflexivity.
Qed.

Lemma divergence_summary_spec (trace : list Hamiltonian.Draw) :
  let s := Hamiltonian.divergence_summary trace in
  Hamiltonian.divergence_count s = length (List.filter Hamiltonian.diverging trace) /\
  (forall j : nat,
      In j (Hamiltonian.divergence_indices s)
      <-> exists d, trace !! j = Some d /\ Hamiltonian.diverging d = true) /\
  (Hamiltonian.divergence_warning s = true
   <-> (0 < Hamiltonian.divergence_count s)%nat).
Proof.
  unfold Hamiltonian.divergence_summary. cbn zeta.
  cbn [Hamiltonian.divergence_count Hamiltonian.divergence_indices
       Hamiltonian.divergence_warning].
  split; [apply divergent_indices_from_length|]. split.
  - intros j. rewrite divergent_indices_from_spec. split.
    + intros (k & d & H1 & H2 & ->). exists d. auto.
    + intros (d & H1 & H2). exists j, d. auto.
  - rewrite negb_true_iff, Nat.eqb_neq. lia.
Qed.

Lemma start_within_threshold (potential : Hamiltonian.Vec -> Q)
    (cfg : Hamiltonian.Config) (z : Hamiltonian.PhasePoint) :
  0 <= Hamiltonian.divergence_threshold cfg ->
  Hamiltonian.exceeds_threshold cfg
    (Hamiltonian.energy_error potential (Hamiltonian.hamiltonian potential z) z) = false.
Proof.
  intros Hthr. unfold Hamiltonian.exceeds_threshold, Qltb, Hamiltonian.energy_error.
  rewrite negb_false_iff. apply Qle_bool_iff.
  assert (Hz : Hamiltonian.hamiltonian potential z - Hamiltonian.hamiltonian potential z == 0)
    by ring.
  rewrite Hz. exact Hthr.
Qed.

Section DivergenceFacts.

Import Hamiltonian.

Variable potential : Vec -> Q.
Variable grad_potential : Vec -> Vec.
Variable cfg : Config.

Local Abbreviation exceeding h0 :=
  (fun z => exceeds_threshold cfg (energy_error potential h0 z) = true).

(** A subtree is flagged as diverged exactly when one of its points has an
    energy error above the threshold. *)
Lemma build_tree_diverged_exists (d : nat) (fwd : bool) (h0 : Q) (z : PhasePoint) :
  sub_diverged (build_tree potential grad_potential cfg d fwd h0 z) = true ->
  Exists (exceeding h0) (points (build_tree potential grad_potential cfg d fwd h0 z)).
Proof.
  revert z. induction d as [|d IH]; intros z.
  - simpl. intros H. apply Exists_cons_hd. exact H.
  - cbn [build_tree].
    set (t1 := build_tree potential grad_potential cfg d fwd h0 z).
    pose proof (IH z) as H1. fold t1 in H1.
    destruct (sub_diverged t1) eqn:Ed; simpl.
    + intros _. apply H1. reflexivity.
    + destruct (sub_turning t1) eqn:Et; simpl.
      * intros H. fold t1 in H. congruence.
      * intros H2. apply Exists_app. right. apply IH. exact H2.
Qed.

Lemma within_not_exceeding (h0 : Q) (pts : list PhasePoint) :
  Forall (fun z => exceeds_threshold cfg (energy_error potential h0 z) = false) pts ->
  ~ Exists (exceeding h0) pts.
Proof.
  intros Hall Hex. rewrite List.Forall_forall in Hall.
  apply List.Exists_exists in Hex. destruct Hex as (z & Hz & He).
  rewrite (Hall z Hz) in He. discriminate.
Qed.

Lemma build_tree_diverged_iff (d : nat) (fwd : bool) (h0 : Q) (z : PhasePoint) :
  sub_diverged (build_tree potential grad_potential cfg d fwd h0 z) = true
  <-> Exists (exceeding h0) (points (build_tree potential grad_potential cfg d fwd h0 z)).
Proof.
  split; [apply build_tree_diverged_exists|].
  intros Hex.
  destruct (sub_diverged (build_tree potential grad_potential cfg d fwd h0 z)) eqn:E;
    [reflexivity|].
  exfalso. apply (within_not_exceeding h0 _ (build_tree_within potential grad_potential
                                               cfg d fwd h0 z E)).
  exact Hex.
Qed.

(** The expansion stops on a divergence exactly when one of the states it
    simulates has an energy error above the threshold. *)
Lemma expand_divergence_iff (fuel : nat) (dirs : nat -> bool) (h0 : Q) (t : Tree) :
  snd (expand potential grad_potential cfg fuel dirs h0 t) = Divergence
  <-> Exists (exceeding h0)
        (nuts_simulated potential grad_potential cfg fuel dirs h0 t).
Proof.
  revert t. induction fuel as [|k IH]; intros t.
  - simpl. split; [discriminate | intros H; inversion H].
  - cbn [expand nuts_simulated].
    set (sub := build_tree potential grad_potential cfg (doublings t)
                  (dirs (doublings t)) h0
                  (if dirs (doublings t) then rightmost t else leftmost t)).
    pose proof (build_tree_diverged_iff (doublings t) (dirs (doublings t)) h0
                  (if dirs (doublings t) then rightmost t else leftmost t)) as Hiff.
    pose proof (build_tree_within potential grad_potential cfg (doublings t)
                  (dirs (doublings t)) h0
                  (if dirs (doublings t) then rightmost t else leftmost t)) as Hin.
    fold sub in Hiff, Hin.
    destruct (sub_diverged sub) eqn:Ed.
    { cbn [snd]. split; [intros _; apply Hiff; reflexivity | reflexivity]. }
    pose proof (within_not_exceeding h0 _ (Hin eq_refl)) as Hnone.
    destruct (sub_turning sub) eqn:Et.
    { cbn [snd]. split; [discriminate | intros H; contradiction]. }
    destruct (uturn _ _) eqn:Eu.
    { cbn [snd]. split; [discriminate | intros H; contradiction]. }
    rewrite IH, Exists_app. split; [intros H; right; exact H|].
    intros [H|H]; [contradiction | exact H].
Qed.

End DivergenceFacts.

(** C6: an HMC transition is flagged as diverging exactly when the energy
    error of its trajectory exceeds the threshold, and a NUTS transition
    exactly when some state its expansion simulates does; a flagged
    transition is rejected (the draw keeps the current position, not
    accepted) and the chain goes on from it with its next draw; a NUTS draw
    is always a trajectory point within the threshold; the summary reports
    the divergences as a count, their draw indices and a warning. *)
Theorem divergent_transition_recovered
    (potential : Hamiltonian.Vec -> Q)
    (grad_potential : Hamiltonian.Vec -> Hamiltonian.Vec)
    (cfg : Hamiltonian.Config) (boltzmann : Q -> Q)
    (q p0 : Hamiltonian.Vec) (logu : Q) (rest : list (Hamiltonian.Vec * Q))
    (dirs : nat -> bool) (u : Q)
    (nrest : list (Hamiltonian.Vec * (nat -> bool) * Q))
    (trace : list Hamiltonian.Draw) :
  let start := Hamiltonian.mkPoint q p0 in
  let h0 := Hamiltonian.hamiltonian potential start in
  let finish :=
    Hamiltonian.integrate grad_potential (Hamiltonian.path_length cfg)
      (Hamiltonian.step_size cfg) start in
  let d := Hamiltonian.hmc_transition potential grad_potential cfg q p0 logu in
  let r := Hamiltonian.expand potential grad_potential cfg
             (Hamiltonian.max_tree_depth cfg) dirs h0
             (Hamiltonian.mkTree start start [start] 0) in
  let simulated := nuts_simulated potential grad_potential cfg
                     (Hamiltonian.max_tree_depth cfg) dirs h0
                     (Hamiltonian.mkTree start start [start] 0) in
  let dn := Hamiltonian.nuts_transition potential grad_potential cfg boltzmann
              q p0 dirs u in
  let s := Hamiltonian.divergence_summary trace in
  0 <= Hamiltonian.divergence_threshold cfg ->
  (Hamiltonian.diverging d = true
   <-> Hamiltonian.exceeds_threshold cfg
         (Hamiltonian.energy_error potential h0 finish) = true) /\
  (Hamiltonian.diverging d = true ->
   Hamiltonian.draw_position d = q /\
   Hamiltonian.accepted d = false /\
   Hamiltonian.hmc_sample potential grad_potential cfg q ((p0, logu) :: rest)
   = d :: Hamiltonian.hmc_sample potential grad_potential cfg q rest) /\
  length (Hamiltonian.hmc_sample potential grad_potential cfg q ((p0, logu) :: rest))
  = S (length rest) /\
  (Hamiltonian.diverging dn = true
   <-> Exists (fun z => Hamiltonian.exceeds_threshold cfg
                          (Hamiltonian.energy_error potential h0 z) = true)
              simulated) /\
  (Hamiltonian.diverging dn = true <-> snd r = Hamiltonian.Divergence) /\
  (Hamiltonian.diverging dn = true ->
   Hamiltonian.draw_position dn = q /\
   Hamiltonian.accepted dn = false /\
   Hamiltonian.nuts_sample potential grad_potential cfg boltzmann q
     ((p0, dirs, u) :: nrest)
   = dn :: Hamiltonian.nuts_sample potential grad_potential cfg boltzmann q nrest) /\
  length (Hamiltonian.nuts_sample potential grad_potential cfg boltzmann q
            ((p0, dirs, u) :: nrest)) = S (length nrest) /\
  (exists z : Hamiltonian.PhasePoint,
      In z (Hamiltonian.candidates (fst r)) /\
      Hamiltonian.draw_position dn = Hamiltonian.position z /\
      Hamiltonian.exceeds_threshold cfg (Hamiltonian.energy_error potential h0 z) = false) /\
  (Hamiltonian.divergence_count s = length (List.filter Hamiltonian.diverging trace) /\
   (forall j : nat,
       In j (Hamiltonian.divergence_indices s)
       <-> exists d', trace !! j = Some d' /\ Hamiltonian.diverging d' = true) /\
   (Hamiltonian.divergence_warning s = true
    <-> (0 < Hamiltonian.divergence_count s)%nat)).
Proof.
  intros start h0 finish d r simulated dn s Hthr.
  (* the HMC transition *)
  assert (Hd : d = if Hamiltonian.exceeds_threshold cfg
                        (Hamiltonian.energy_error potential h0 finish)
                   then Hamiltonian.mkDraw q h0 true false 0 false
                   else if Qltb logu (- Hamiltonian.energy_error potential h0 finish)
                        then Hamiltonian.mkDraw (Hamiltonian.position finish)
                               (Hamiltonian.hamiltonian potential finish)
                               false true 0 false
                        else Hamiltonian.mkDraw q h0 false false 0 false).
  { reflexivity. }
  assert (Hflag : Hamiltonian.diverging d = true
                  <-> Hamiltonian.exceeds_threshold cfg
                        (Hamiltonian.energy_error potential h0 finish) = true).
  { rewrite Hd.
    destruct (Hamiltonian.exceeds_threshold cfg
                (Hamiltonian.energy_error potential h0 finish)).
    - simpl. tauto.
    - destruct (Qltb logu (- Hamiltonian.energy_error potential h0 finish));
        simpl; split; discriminate. }
  split; [exact Hflag|]. split.
  { intros Hdiv. apply Hflag in Hdiv.
    assert (Hd' : d = Hamiltonian.mkDraw q h0 true false 0 false).
    { rewrite Hd, Hdiv. reflexivity. }
    split; [rewrite Hd'; reflexivity|]. split; [rewrite Hd'; reflexivity|].
    cbn [Hamiltonian.hmc_sample]. fold d. rewrite Hd' at 2. reflexivity. }
  split; [rewrite hmc_sample_length; reflexivity|].
  (* the NUTS transition *)
  pose proof (expand_spec potential grad_potential cfg
                (Hamiltonian.max_tree_depth cfg) dirs h0
                (Hamiltonian.mkTree start start [start] 0)) as Hex.
  cbv zeta in Hex. fold r in Hex.
  destruct Hex as (_ & _ & _ & Hwithin & _ & Hkeep).
  assert (Hstart : In start (Hamiltonian.candidates (fst r))).
  { apply Hkeep. simpl. left. reflexivity. }
  assert (Hall : Forall (fun z' => Hamiltonian.exceeds_threshold cfg
                           (Hamiltonian.energy_error potential h0 z') = false)
                        (Hamiltonian.candidates (fst r))).
  { apply Hwithin. simpl. constructor; [|constructor].
    apply start_within_threshold. exact Hthr. }
  rewrite List.Forall_forall in Hall.
  set (z := Hamiltonian.pick potential boltzmann h0
              (u * Hamiltonian.total_weight potential boltzmann h0
                     (Hamiltonian.candidates (fst r)))
              start (Hamiltonian.candidates (fst r))).
  assert (Hz : In z (Hamiltonian.candidates (fst r))).
  { destruct (pick_in potential boltzmann h0
                (u * Hamiltonian.total_weight potential boltzmann h0
                       (Hamiltonian.candidates (fst r)))
                start (Hamiltonian.candidates (fst r))) as [H|H].
    - fold z in H. rewrite <- H. exact Hstart.
    - exact H. }
  assert (Hdn : dn = match snd r with
                     | Hamiltonian.Divergence =>
                         Hamiltonian.mkDraw q h0 true false
                           (Hamiltonian.doublings (fst r)) false
                     | _ =>
                         Hamiltonian.mkDraw (Hamiltonian.position z)
                           (Hamiltonian.hamiltonian potential z) false true
                           (Hamiltonian.doublings (fst r))
                           (match snd r with
                            | Hamiltonian.MaxTreeDepth => true
                            | _ => false
                            end)
                     end).
  { unfold dn, Hamiltonian.nuts_transition. fold start. fold h0. fold r.
    unfold z. destruct r as [t []]; reflexivity. }
  assert (Hnflag : Hamiltonian.diverging dn = true <-> snd r = Hamiltonian.Divergence).
  { rewrite Hdn. destruct (snd r); simpl; split; congruence. }
  split.
  { rewrite Hnflag. unfold r, simulated. apply expand_divergence_iff. }
  split; [exact Hnflag|]. split.
  { intros Hdiv. apply Hnflag in Hdiv.
    assert (Hdn' : dn = Hamiltonian.mkDraw q h0 true false
                          (Hamiltonian.doublings (fst r)) false).
    { rewrite Hdn, Hdiv. reflexivity. }
    split; [rewrite Hdn'; reflexivity|]. split; [rewrite Hdn'; reflexivity|].
    cbn [Hamiltonian.nuts_sample]. fold dn. rewrite Hdn' at 2. reflexivity. }
  split; [rewrite nuts_sample_length; reflexivity|].
  split; [|apply divergence_summary_spec].
  destruct (snd r) eqn:Er.
  - exists z. split; [exact Hz|]. split; [rewrite Hdn; reflexivity|].
    apply Hall. exact Hz.
  - exists start. split; [exact Hstart|]. split; [rewrite Hdn; reflexivity|].
    apply Hall. exact Hstart.
  - exists z. split; [exact Hz|]. split; [rewrite Hdn; reflexivity|].
    apply Hall. exact Hz.
Qed.

Lemma divergent_transition_recovered_witness :
  let cfg := Hamiltonian.mkConfig 100 1 1000 10 in
  let d := Hamiltonian.hmc_transition Hamiltonian.normal_potential
             Hamiltonian.normal_gradient cfg [1] [1 # 2] (- (1 # 10)) in
  let dn := Hamiltonian.nuts_transition Hamiltonian.normal_potential
              Hamiltonian.normal_gradient cfg Hamiltonian.example_weight
              [1] [1 # 2] (fun _ => true) (1 # 3) in
  (Hamiltonian.draw_position d = [1] /\ Hamiltonian.accepted d = false) /\
  (Hamiltonian.draw_position dn = [1] /\ Hamiltonian.accepted dn = false) /\
  Exists (fun z => Hamiltonian.exceeds_threshold cfg
                     (Hamiltonian.energy_error Hamiltonian.normal_potential
                        (Hamiltonian.hamiltonian Hamiltonian.normal_potential
                           (Hamiltonian.mkPoint [1] [1 # 2])) z) = true)
         (nuts_simulated Hamiltonian.normal_potential Hamiltonian.normal_gradient
            cfg 10 (fun _ => true)
            (Hamiltonian.hamiltonian Hamiltonian.normal_potential
               (Hamiltonian.mkPoint [1] [1 # 2]))
            (Hamiltonian.mkTree (Hamiltonian.mkPoint [1] [1 # 2])
               (Hamiltonian.mkPoint [1] [1 # 2])
               [Hamiltonian.mkPoint [1] [1 # 2]] 0)).
Proof.
  intros cfg d dn.
  pose proof (divergent_transition_recovered Hamiltonian.normal_potential
                Hamiltonian.normal_gradient cfg Hamiltonian.example_weight
                [1] [1 # 2] (- (1 # 10)) [] (fun _ => true) (1 # 3) [] []) as H.
  cbv zeta in H.
  destruct H as (_ & Hhmc & _ & Hiff & _ & Hnuts & _).
  - discriminate.
  - assert (Hd : Hamiltonian.diverging d = true) by (vm_compute; reflexivity).
    assert (Hn : Hamiltonian.diverging dn = true) by (vm_compute; reflexivity).
    destruct (Hhmc Hd) as (H1 & H2 & _).
    destruct (Hnuts Hn) as (H3 & H4 & _).
    split; [split; [exact H1 | exact H2]|].
    split; [split; [exact H3 | exact H4]|].
    apply Hiff. exact Hn.
Defined.

(** C8: for every starting point, momentum draw and direction stream the
    NUTS expansion is a total function that performs at most max_tree_depth
    doublings and keeps at most 2^max_tree_depth candidate points; reaching
    the ceiling only sets the reached_max_treedepth flag of the draw (and
    then the depth is exactly the ceiling), and the chain goes on to its next
    draw. *)
Theorem nuts_expansion_bounded
    (potential : Hamiltonian.Vec -> Q)
    (grad_potential : Hamiltonian.Vec -> Hamiltonian.Vec)
    (cfg : Hamiltonian.Config) (boltzmann : Q -> Q)
    (q p0 : Hamiltonian.Vec) (dirs : nat -> bool) (u : Q)
    (rest : list (Hamiltonian.Vec * (nat -> bool) * Q)) :
  let start := Hamiltonian.mkPoint q p0 in
  let h0 := Hamiltonian.hamiltonian potential start in
  let r := Hamiltonian.expand potential grad_potential cfg
             (Hamiltonian.max_tree_depth cfg) dirs h0
             (Hamiltonian.mkTree start start [start] 0) in
  let d := Hamiltonian.nuts_transition potential grad_potential cfg boltzmann
             q p0 dirs u in
  Hamiltonian.tree_depth d = Hamiltonian.doublings (fst r) /\
  (Hamiltonian.tree_depth d <= Hamiltonian.max_tree_depth cfg)%nat /\
  (length (Hamiltonian.candidates (fst r))
   <= 2 ^ Hamiltonian.tree_depth d <= 2 ^ Hamiltonian.max_tree_depth cfg)%nat /\
  (Hamiltonian.reached_max_treedepth d = true <-> snd r = Hamiltonian.MaxTreeDepth) /\
  (Hamiltonian.reached_max_treedepth d = true ->
   Hamiltonian.tree_depth d = Hamiltonian.max_tree_depth cfg) /\
  Hamiltonian.nuts_sample potential grad_potential cfg boltzmann q ((p0, dirs, u) :: rest)
  = d :: Hamiltonian.nuts_sample potential grad_potential cfg boltzmann
           (Hamiltonian.draw_position d) rest /\
  length (Hamiltonian.nuts_sample potential grad_potential cfg boltzmann q
            ((p0, dirs, u) :: rest)) = S (length rest).
Proof.
  intros start h0 r d.
  pose proof (expand_spec potential grad_potential cfg
                (Hamiltonian.max_tree_depth cfg) dirs h0
                (Hamiltonian.mkTree start start [start] 0)) as Hex.
  cbv zeta in Hex. fold r in Hex.
  destruct Hex as (Hle & Hmax & _ & _ & Hsize & _).
  cbn [Hamiltonian.doublings Hamiltonian.candidates] in Hle, Hmax, Hsize.
  assert (Hdepth : Hamiltonian.tree_depth d = Hamiltonian.doublings (fst r)).
  { unfold d, Hamiltonian.nuts_transition. fold start. fold h0. fold r.
    destruct r as [t []]; reflexivity. }
  assert (Hflag : Hamiltonian.reached_max_treedepth d
                  = match snd r with Hamiltonian.MaxTreeDepth => true | _ => false end).
  { unfold d, Hamiltonian.nuts_transition. fold start. fold h0. fold r.
    destruct r as [t []]; reflexivity. }
  assert (Hiff : Hamiltonian.reached_max_treedepth d = true
                 <-> snd r = Hamiltonian.MaxTreeDepth).
  { rewrite Hflag. destruct (snd r); split; congruence. }
  split; [exact Hdepth|]. rewrite Hdepth.
  split; [lia|]. split.
  { split; [apply Hsize; simpl; lia|].
    apply Nat.pow_le_mono_r; lia. }
  split; [exact Hiff|]. split.
  { intros H. apply Hiff in H. rewrite (Hmax H). lia. }
  split; [reflexivity|].
  rewrite nuts_sample_length. reflexivity.
Qed.

(* ===================================================================== *)
(** ** Multi-Chain Orchestrator *)
(* ===================================================================== *)

Example schedules_ex :
  (Orchestrator.sequential_schedule 3 2, Orchestrator.round_robin_schedule 3 2)
  = ([0; 0; 1; 1; 2; 2]%nat, [0; 1; 2; 0; 1; 2]%nat).
Proof. reflexivity. Qed.

Example parallel_metropolis_ex :
  Orchestrator.run_schedule
    (Orchestrator.metropolis_draw Metropolis.half_line_target 2)
    (Orchestrator.round_robin_schedule 3 3)
    (Orchestrator.launch (Orchestrator.metropolis_init 1) 42 3)
  = Orchestrator.run_sequential (Orchestrator.metropolis_init 1)
      (Orchestrator.metropolis_draw Metropolis.half_line_target 2) 42 3 3.
Proof. vm_compute. reflexivity. Qed.

Section OrchestratorFacts.

Import Orchestrator.

Variable ChainState : Type.
Variable init_chain : Z -> nat -> ChainState.
Variable chain_step : ChainState -> ChainState.

Lemma iter_shift (n : nat) (x : ChainState) :
  Nat.iter n chain_step (chain_step x) = Nat.iter (S n) chain_step x.
Proof.
  induction n as [|n IH]; simpl; [reflexivity|].
  rewrite IH. reflexivity.
Qed.

(** After an execution, chain [i] has made as many draws as the execution
    gave it, and nothing else has happened to it. *)
Lemma run_schedule_lookup (sched : list nat) (e : list ChainState) (i : nat) :
  run_schedule chain_step sched e !! i
  = Nat.iter (steps_of i sched) chain_step <$> e !! i.
Proof.
  revert e. induction sched as [|j rest IH]; intros e.
  - simpl. destruct (e !! i); reflexivity.
  - cbn [run_schedule foldl]. fold (run_schedule chain_step rest (step_chain chain_step j e)).
    rewrite IH. unfold step_chain. cbn [steps_of].
    destruct (Nat.eqb_spec i j) as [->|Hne].
    + rewrite list_lookup_alter_eq. destruct (e !! j) as [x|]; simpl; [|reflexivity].
      f_equal. rewrite iter_shift. reflexivity.
    + rewrite list_lookup_alter_ne by congruence. reflexivity.
Qed.

Lemma run_schedule_length (sched : list nat) (e : list ChainState) :
  length (run_schedule chain_step sched e) = length e.
Proof.
  revert e. induction sched as [|j rest IH]; intros e; [reflexivity|].
  cbn [run_schedule foldl]. fold (run_schedule chain_step rest (step_chain chain_step j e)).
  rewrite IH. apply length_alter.
Qed.

Lemma complete_schedule_steps (C D : nat) (sched : list nat) (i : nat) :
  complete_schedule C D sched = true -> (i < C)%nat -> steps_of i sched = D.
Proof.
  unfold complete_schedule. rewrite forallb_forall. intros H Hi.
  apply Nat.eqb_eq, H. apply in_seq. lia.
Qed.

Lemma launch_lookup (base_seed : Z) (C i : nat) :
  launch init_chain base_seed C !! i
  = if decide (i < C)%nat then Some (init_chain base_seed i) else None.
Proof.
  unfold launch. rewrite list_lookup_fmap.
  destruct (decide (i < C)%nat) as [Hlt|Hge].
  - rewrite lookup_seq_lt by exact Hlt. reflexivity.
  - rewrite lookup_seq_ge by lia. reflexivity.
Qed.

(** The ensemble of a complete run: chain [i] is its seeded initial state
    advanced by D draws. *)
Lemma complete_run_lookup (base_seed : Z) (C D : nat) (sched : list nat) (i : nat) :
  complete_schedule C D sched = true ->
  run_schedule chain_step sched (launch init_chain base_seed C) !! i
  = if decide (i < C)%nat
    then Some (Nat.iter D chain_step (init_chain base_seed i))
    else None.
Proof.
  intros Hc. rewrite run_schedule_lookup, launch_lookup.
  destruct (decide (i < C)%nat) as [Hlt|Hge]; [|reflexivity].
  simpl. rewrite (complete_schedule_steps C D sched i Hc Hlt). reflexivity.
Qed.

Lemma steps_of_app (i : nat) (s1 s2 : list nat) :
  steps_of i (s1 ++ s2) = (steps_of i s1 + steps_of i s2)%nat.
Proof.
  induction s1 as [|j rest IH]; simpl; [reflexivity|]. rewrite IH. lia.
Qed.

Lemma steps_of_replicate (i j D : nat) :
  steps_of i (replicate D j) = if Nat.eqb i j then D else 0%nat.
Proof.
  induction D as [|D IH]; simpl.
  - destruct (Nat.eqb i j); reflexivity.
  - rewrite IH. destruct (Nat.eqb i j); lia.
Qed.

Lemma steps_of_sequential_from (i a C D : nat) :
  steps_of i (flat_map (fun k => replicate D k) (seq a C))
  = if decide (a <= i < a + C)%nat then D else 0%nat.
Proof.
  revert a. induction C as [|C IH]; intros a; simpl.
  - destruct (decide (a <= i < a + 0)%nat); [lia | reflexivity].
  - rewrite steps_of_app, steps_of_replicate, IH.
    destruct (Nat.eqb_spec i a) as [->|Hne];
      repeat destruct (decide _); lia.
Qed.

Lemma sequential_schedule_complete (C D : nat) :
  complete_schedule C D (sequential_schedule C D) = true.
Proof.
  unfold complete_schedule. rewrite forallb_forall. intros i Hi.
  apply in_seq in Hi. apply Nat.eqb_eq. unfold sequential_schedule.
  rewrite steps_of_sequential_from. destruct (decide _); lia.
Qed.

End OrchestratorFacts.

(** C7: a complete run is determined by the base seed and the chain count:
    whatever the order in which the draws of the chains are executed, two
    complete runs from the same seed with the same number of chains give the
    same ensemble; in particular any parallel execution gives the ensemble
    of the strictly sequential one, in which chain i is its seeded initial
    state advanced by D draws. *)
Theorem run_deterministic_in_seed {ChainState : Type}
    (init_chain : Z -> nat -> ChainState)
    (chain_step : ChainState -> ChainState)
    (base_seed : Z) (C D : nat) (sched1 sched2 : list nat) :
  Orchestrator.complete_schedule C D sched1 = true ->
  Orchestrator.complete_schedule C D sched2 = true ->
  Orchestrator.run_schedule chain_step sched1
    (Orchestrator.launch init_chain base_seed C)
  = Orchestrator.run_schedule chain_step sched2
      (Orchestrator.launch init_chain base_seed C) /\
  Orchestrator.run_schedule chain_step sched1
    (Orchestrator.launch init_chain base_seed C)
  = Orchestrator.run_sequential init_chain chain_step base_seed C D /\
  Orchestrator.run_sequential init_chain chain_step base_seed C D
  = (fun i => Nat.iter D chain_step (init_chain base_seed i)) <$> seq 0 C.
Proof.
  intros H1 H2.
  pose proof (sequential_schedule_complete C D) as Hs.
  assert (Hall : forall sched,
             Orchestrator.complete_schedule C D sched = true ->
             Orchestrator.run_schedule chain_step sched
               (Orchestrator.launch init_chain base_seed C)
             = (fun i => Nat.iter D chain_step (init_chain base_seed i)) <$> seq 0 C).
  { intros sched Hc. apply list_eq. intros i.
    rewrite (complete_run_lookup _ init_chain chain_step base_seed C D sched i Hc).
    rewrite list_lookup_fmap.
    destruct (decide (i < C)%nat) as [Hlt|Hge].
    - rewrite lookup_seq_lt by exact Hlt. reflexivity.
    - rewrite lookup_seq_ge by lia. reflexivity. }
  unfold Orchestrator.run_sequential.
  rewrite (Hall sched1 H1), (Hall sched2 H2), (Hall _ Hs). auto.
Qed.

Lemma run_deterministic_in_seed_witness :
  Orchestrator.run_schedule
    (Orchestrator.metropolis_draw Metropolis.half_line_target 2)
    [2; 0; 1; 1; 0; 2]%nat
    (Orchestrator.launch (Orchestrator.metropolis_init 1) 42 3)
  = Orchestrator.run_schedule
      (Orchestrator.metropolis_draw Metropolis.half_line_target 2)
      (Orchestrator.round_robin_schedule 3 2)
      (Orchestrator.launch (Orchestrator.metropolis_init 1) 42 3).
Proof.
  refine (proj1 (run_deterministic_in_seed (Orchestrator.metropolis_init 1)
                   (Orchestrator.metropolis_draw Metropolis.half_line_target 2)
                   42 3 2 [2; 0; 1; 1; 0; 2]%nat
                   (Orchestrator.round_robin_schedule 3 2) _ _));
    reflexivity.
Defined.

(* ===================================================================== *)
(** * Further properties of the notebooks' formulas and code *)
(* ===================================================================== *)

(** ** Affine changes of the draws *)

Lemma length_affine (a b : Q) (xs : list Q) : length (affine a b xs) = length xs.
Proof. apply length_map. Qed.

Lemma lenQ_affine (a b : Q) (xs : list Q) : lenQ (affine a b xs) = lenQ xs.
Proof. unfold lenQ. rewrite length_affine. reflexivity. Qed.

Lemma sumQ_affine (a b : Q) (xs : list Q) :
  sumQ (affine a b xs) == a * sumQ xs + lenQ xs * b.
Proof.
  induction xs as [|x xs IH].
  - unfold lenQ. simpl. ring.
  - cbn [affine map sumQ]. fold (affine a b xs). rewrite IH, lenQ_cons. ring.
Qed.

Lemma lenQ_pos {A : Type} (xs : list A) : xs <> [] -> 0 < lenQ xs.
Proof.
  intros H. destruct xs as [|x xs]; [contradiction|].
  rewrite lenQ_cons. pose proof (lenQ_nonneg xs). lra.
Qed.

Lemma mean_affine (a b : Q) (xs : list Q) :
  xs <> [] -> mean (affine a b xs) == a * mean xs + b.
Proof.
  intros H. pose proof (lenQ_pos xs H) as Hn.
  unfold mean. rewrite sumQ_affine, lenQ_affine. field. lra.
Qed.

Lemma sum_sq_dev_affine (a b c : Q) (xs : list Q) :
  sum_sq_dev (a * c + b) (affine a b xs) == a * a * sum_sq_dev c xs.
Proof.
  unfold sum_sq_dev. induction xs as [|x xs IH].
  - simpl. ring.
  - cbn [affine map sumQ]. fold (affine a b xs). rewrite IH. unfold sq. ring.
Qed.

Lemma sum_sq_dev_mean_affine (a b : Q) (xs : list Q) :
  xs <> [] ->
  sum_sq_dev (mean (affine a b xs)) (affine a b xs)
  == a * a * sum_sq_dev (mean xs) xs.
Proof.
  intros H.
  rewrite (sum_sq_dev_proper _ (a * mean xs + b)) by (apply mean_affine; exact H).
  apply sum_sq_dev_affine.
Qed.

Lemma constant_chain_nonempty (xs : list Q) : constant_chain xs = false -> xs <> [].
Proof. destruct xs; [discriminate | discriminate]. Qed.

Lemma sum_squares_nonneg (xs : list Q) : 0 <= sumQ (map sq xs).
Proof.
  induction xs as [|x xs IH]; simpl; [lra|].
  pose proof (sq_nonneg x). lra.
Qed.

(** ** BFMI: range and invariance *)

(** Each energy enters at most two successive differences. *)
Lemma diffs_squares_bound (c e0 : Q) (r : list Q) :
  sumQ (map sq (Diagnostics.diffs (e0 :: r)))
  <= 2 * sq (e0 - c) + 4 * sum_sq_dev c r.
Proof.
  revert e0. induction r as [|e1 r IH]; intros e0.
  - simpl. unfold sum_sq_dev. simpl. pose proof (sq_nonneg (e0 - c)). lra.
  - change (Diagnostics.diffs (e0 :: e1 :: r))
      with ((e1 - e0) :: Diagnostics.diffs (e1 :: r)).
    specialize (IH e1).
    unfold sum_sq_dev in *. cbn [map sumQ].
    assert (Hid : 2 * sq (e0 - c) + 2 * sq (e1 - c) - sq (e1 - e0)
                  == sq (e0 + e1 - 2 * c)) by (unfold sq; ring).
    pose proof (sq_nonneg (e0 + e1 - 2 * c)) as Hsq.
    lra.
Qed.

Lemma diffs_affine_squares (a b : Q) (E : list Q) :
  sumQ (map sq (Diagnostics.diffs (affine a b E)))
  == a * a * sumQ (map sq (Diagnostics.diffs E)).
Proof.
  induction E as [|e0 r IH]; [simpl; ring|].
  destruct r as [|e1 r']; [simpl; ring|].
  change (affine a b (e0 :: e1 :: r'))
    with ((a * e0 + b) :: affine a b (e1 :: r')).
  change (affine a b (e1 :: r')) with ((a * e1 + b) :: affine a b r') at 1.
  change (Diagnostics.diffs ((a * e0 + b) :: (a * e1 + b) :: affine a b r'))
    with ((a * e1 + b - (a * e0 + b))
          :: Diagnostics.diffs ((a * e1 + b) :: affine a b r')).
  change ((a * e1 + b) :: affine a b r') with (affine a b (e1 :: r')).
  change (Diagnostics.diffs (e0 :: e1 :: r'))
    with ((e1 - e0) :: Diagnostics.diffs (e1 :: r')).
  cbn [map sumQ]. rewrite IH. unfold sq. ring.
Qed.

(** X3: the BFMI estimate of a moving energy trace lies between 0 and 4. *)
Theorem bfmi_range (E : list Q) :
  constant_chain E = false ->
  0 <= Diagnostics.bfmi E <= 4.
Proof.
  intros Hmoves.
  pose proof (sum_sq_dev_pos (mean E) E Hmoves) as Hpos.
  pose proof (sum_squares_nonneg (Diagnostics.diffs E)) as Hnum.
  assert (Hub : sumQ (map sq (Diagnostics.diffs E)) <= 4 * sum_sq_dev (mean E) E).
  { destruct E as [|e0 r]; [discriminate|].
    pose proof (diffs_squares_bound (mean (e0 :: r)) e0 r) as Hb.
    unfold sum_sq_dev in *. cbn [map sumQ].
    pose proof (sq_nonneg (e0 - mean (e0 :: r))). lra. }
  unfold Diagnostics.bfmi. split.
  - apply Qle_shift_div_l; lra.
  - apply Qle_shift_div_r; lra.
Qed.

Lemma bfmi_range_witness : 0 <= Diagnostics.bfmi [3; 1; 2; 2] <= 4.
Proof. apply (bfmi_range [3; 1; 2; 2]). reflexivity. Defined.

(** X4: the BFMI estimate does not change when the energies are rescaled or
    shifted by a constant. *)
Theorem bfmi_affine_invariant (a b : Q) (E : list Q) :
  ~ a == 0 ->
  constant_chain E = false ->
  Diagnostics.bfmi (affine a b E) == Diagnostics.bfmi E.
Proof.
  intros Ha Hmoves.
  pose proof (sum_sq_dev_pos (mean E) E Hmoves) as Hpos.
  pose proof (constant_chain_nonempty E Hmoves) as Hne.
  unfold Diagnostics.bfmi.
  rewrite diffs_affine_squares, (sum_sq_dev_mean_affine a b E Hne).
  set (s := sum_sq_dev (mean E) E) in *.
  set (d := sumQ (map sq (Diagnostics.diffs E))). clearbody s d.
  field. split; [lra | exact Ha].
Qed.

Lemma bfmi_affine_invariant_witness :
  Diagnostics.bfmi (affine (- (2)) 7 [3; 1; 2; 2]) == Diagnostics.bfmi [3; 1; 2; 2].
Proof.
  apply (bfmi_affine_invariant (- (2)) 7 [3; 1; 2; 2]).
  - discriminate.
  - reflexivity.
Defined.

(** ** R-hat: between against within, and invariance *)

Lemma sumQ_map_nonneg {A : Type} (f : A -> Q) (xs : list A) :
  (forall x, 0 <= f x) -> 0 <= sumQ (map f xs).
Proof.
  intros Hf. induction xs as [|x xs IH]; simpl; [lra|].
  pose proof (Hf x). lra.
Qed.

Lemma sqrt_ge_1_iff (x : R) : (1 <= sqrt x)%R <-> (1 <= x)%R.
Proof.
  split; intros H.
  - destruct (Rle_or_lt 1 x) as [Hx|Hx]; [exact Hx|].
    exfalso. destruct (Rle_or_lt 0 x) as [H0|H0].
    + assert (Hlt : (sqrt x < 1)%R) by (apply sqrt_lt_bound; lra). lra.
    + rewrite sqrt_neg_0 in H by lra. lra.
  - rewrite <- sqrt_1 at 1. apply sqrt_le_1_alt. exact H.
Qed.

(** X1: with at least two chains of at least one draw and a positive
    within-chain variance W, the between-chain variance B is non-negative,
    R-hat squared is (n-1)/n + B/(n W), and R-hat reaches 1 exactly when
    B is at least W. *)
Theorem rhat_between_against_within (chains : list (list Q)) :
  (2 <= length chains)%nat ->
  1 <= Diagnostics.chain_length chains ->
  0 < Diagnostics.within_chain_variance chains ->
  0 <= Diagnostics.between_chain_variance chains /\
  Diagnostics.rhat_ratio chains
  == (Diagnostics.chain_length chains - 1) / Diagnostics.chain_length chains
     + Diagnostics.between_chain_variance chains
       / (Diagnostics.chain_length chains * Diagnostics.within_chain_variance chains) /\
  (Diagnostics.chain_length chains - 1) / Diagnostics.chain_length chains
  <= Diagnostics.rhat_ratio chains /\
  ((1 <= Diagnostics.rhat chains)%R
   <-> Diagnostics.within_chain_variance chains
       <= Diagnostics.between_chain_variance chains).
Proof.
  intros Hm Hn HW.
  assert (Hm' : 2 <= Diagnostics.num_chains chains) by apply (lenQ_ge chains 2 Hm).
  assert (HB : 0 <= Diagnostics.between_chain_variance chains).
  { unfold Diagnostics.between_chain_variance. cbv zeta.
    apply Qmult_le_0_compat.
    - apply Qle_shift_div_l; lra.
    - apply sumQ_map_nonneg. intros c. apply sq_nonneg. }
  assert (Hdec : Diagnostics.rhat_ratio chains
                 == (Diagnostics.chain_length chains - 1) / Diagnostics.chain_length chains
                    + Diagnostics.between_chain_variance chains
                      / (Diagnostics.chain_length chains
                         * Diagnostics.within_chain_variance chains)).
  { unfold Diagnostics.rhat_ratio, Diagnostics.var_hat. cbv zeta.
    set (n := Diagnostics.chain_length chains) in *.
    set (W := Diagnostics.within_chain_variance chains) in *.
    set (B := Diagnostics.between_chain_variance chains) in *.
    clearbody n W B. field. split; lra. }
  set (n := Diagnostics.chain_length chains) in *.
  set (W := Diagnostics.within_chain_variance chains) in *.
  set (B := Diagnostics.between_chain_variance chains) in *.
  assert (HnW : 0 < n * W) by nra.
  assert (Hfrac : 0 <= B / (n * W)) by (apply Qle_shift_div_l; lra).
  assert (Hgap : Diagnostics.rhat_ratio chains - 1 == (B - W) / (n * W)).
  { rewrite Hdec. clearbody n W B. field. split; lra. }
  split; [exact HB|]. split; [exact Hdec|]. split; [lra|].
  unfold Diagnostics.rhat. rewrite sqrt_ge_1_iff.
  rewrite <- RMicromega.Q2R_1. split.
  - intros H. apply Rle_Qle in H.
    assert (H0 : 0 <= (B - W) / (n * W)) by lra.
    destruct (Qlt_le_dec B W) as [Hlt|Hle]; [|exact Hle].
    exfalso. assert (Hneg : (B - W) / (n * W) < 0).
    { apply Qlt_shift_div_r; lra. }
    lra.
  - intros H. apply Qle_Rle.
    assert (H0 : 0 <= (B - W) / (n * W)) by (apply Qle_shift_div_l; lra).
    lra.
Qed.

Lemma rhat_between_against_within_witness :
  (1 <= Diagnostics.rhat [[0; 1; 2]; [2; 3; 7]]%Q)%R
  <-> Diagnostics.within_chain_variance [[0; 1; 2]; [2; 3; 7]]
      <= Diagnostics.between_chain_variance [[0; 1; 2]; [2; 3; 7]].
Proof.
  refine (proj2 (proj2 (proj2
    (rhat_between_against_within [[0; 1; 2]; [2; 3; 7]] _ _ _)))).
  - simpl. lia.
  - discriminate.
  - reflexivity.
Defined.

Lemma between_terms_affine (a b g g' : Q) (chains : list (list Q)) :
  g' == a * g + b ->
  Forall (fun c => c <> []) chains ->
  sumQ (map (fun c => sq (mean c - g')) (map (affine a b) chains))
  == a * a * sumQ (map (fun c => sq (mean c - g)) chains).
Proof.
  intros Hg Hne. induction Hne as [|c cs Hc Hcs IH].
  - simpl. ring.
  - cbn [map sumQ]. rewrite IH. unfold sq.
    rewrite (mean_affine a b c Hc), Hg. ring.
Qed.

Lemma chain_variance_affine (a b : Q) (c : list Q) :
  c <> [] ->
  Diagnostics.chain_variance (affine a b c) == a * a * Diagnostics.chain_variance c.
Proof.
  intros Hc. unfold Diagnostics.chain_variance.
  rewrite lenQ_affine, (sum_sq_dev_mean_affine a b c Hc). ring.
Qed.

Lemma within_terms_affine (a b : Q) (chains : list (list Q)) :
  Forall (fun c => c <> []) chains ->
  sumQ (map Diagnostics.chain_variance (map (affine a b) chains))
  == a * a * sumQ (map Diagnostics.chain_variance chains).
Proof.
  intros Hne. induction Hne as [|c cs Hc Hcs IH].
  - simpl. ring.
  - cbn [map sumQ]. rewrite IH, (chain_variance_affine a b c Hc). ring.
Qed.

Lemma concat_affine (a b : Q) (chains : list (list Q)) :
  concat (map (affine a b) chains) = affine a b (concat chains).
Proof.
  induction chains as [|c cs IH]; [reflexivity|].
  cbn [map concat]. rewrite IH. unfold affine. rewrite map_app. reflexivity.
Qed.

Lemma chain_length_affine (a b : Q) (chains : list (list Q)) :
  Diagnostics.chain_length (map (affine a b) chains) = Diagnostics.chain_length chains.
Proof. destruct chains as [|c cs]; [reflexivity|]. simpl. apply lenQ_affine. Qed.

Lemma num_chains_affine (a b : Q) (chains : list (list Q)) :
  Diagnostics.num_chains (map (affine a b) chains) = Diagnostics.num_chains chains.
Proof. unfold Diagnostics.num_chains, lenQ. rewrite length_map. reflexivity. Qed.

(** X2: R-hat is unchanged when every draw of every chain is rescaled (by a
    non-zero factor) and shifted: it does not depend on the unit or the
    origin in which the estimand is measured. *)
Theorem rhat_affine_invariant (a b : Q) (chains : list (list Q)) :
  ~ a == 0 ->
  Forall (fun c => c <> []) chains ->
  0 < Diagnostics.within_chain_variance chains ->
  Diagnostics.rhat (map (affine a b) chains) = Diagnostics.rhat chains.
Proof.
  intros Ha Hne HW.
  assert (Hchains : concat chains <> []).
  { destruct chains as [|c cs].
    - exfalso. unfold Diagnostics.within_chain_variance in HW. simpl in HW.
      revert HW. apply Qle_not_lt. apply Qle_lteq. right. ring.
    - inversion Hne as [|? ? Hc _]; subst. simpl. intros H.
      apply app_eq_nil in H. destruct H as [H _]. contradiction. }
  assert (Hg : Diagnostics.grand_mean (map (affine a b) chains)
               == a * Diagnostics.grand_mean chains + b).
  { unfold Diagnostics.grand_mean. rewrite concat_affine.
    apply mean_affine. exact Hchains. }
  assert (HB : Diagnostics.between_chain_variance (map (affine a b) chains)
               == a * a * Diagnostics.between_chain_variance chains).
  { unfold Diagnostics.between_chain_variance. cbv zeta.
    rewrite chain_length_affine, num_chains_affine.
    rewrite (between_terms_affine a b (Diagnostics.grand_mean chains) _ chains Hg Hne).
    ring. }
  assert (HWa : Diagnostics.within_chain_variance (map (affine a b) chains)
                == a * a * Diagnostics.within_chain_variance chains).
  { unfold Diagnostics.within_chain_variance.
    rewrite num_chains_affine, (within_terms_affine a b chains Hne). ring. }
  assert (Hratio : Diagnostics.rhat_ratio (map (affine a b) chains)
                   == Diagnostics.rhat_ratio chains).
  { unfold Diagnostics.rhat_ratio, Diagnostics.var_hat. cbv zeta.
    rewrite chain_length_affine, HB, HWa.
    set (k1 := (Diagnostics.chain_length chains - 1) / Diagnostics.chain_length chains).
    set (k2 := 1 / Diagnostics.chain_length chains).
    set (W := Diagnostics.within_chain_variance chains) in *.
    set (B := Diagnostics.between_chain_variance chains).
    clearbody k1 k2 W B. field. split; [lra | exact Ha]. }
  unfold Diagnostics.rhat. rewrite (Qeq_eqR _ _ Hratio). reflexivity.
Qed.

Lemma rhat_affine_invariant_witness :
  Diagnostics.rhat (map (affine 3 (- (5))) [[0; 1; 2]; [2; 3; 7]])
  = Diagnostics.rhat [[0; 1; 2]; [2; 3; 7]].
Proof.
  apply (rhat_affine_invariant 3 (- (5)) [[0; 1; 2]; [2; 3; 7]]).
  - discriminate.
  - repeat constructor; discriminate.
  - reflexivity.
Defined.

(** ** Metropolis: what the acceptance rule implies *)

Lemma acceptance_scaled {State : Type} (c : Q) (pi : State -> Q) (cand cur : State) :
  0 < c -> 0 < pi cur ->
  Metropolis.acceptance (scaled_target c pi) cand cur
  == Metropolis.acceptance pi cand cur.
Proof.
  intros Hc Hcur. unfold Metropolis.acceptance, scaled_target. field. split; lra.
Qed.

Lemma accepts_scaled {State : Type} (c : Q) (pi : State -> Q) (cand cur : State) (u : Q) :
  0 < c -> 0 < pi cur ->
  Metropolis.accepts (scaled_target c pi) cand cur u = Metropolis.accepts pi cand cur u.
Proof.
  intros Hc Hcur. unfold Metropolis.accepts.
  rewrite (acceptance_scaled c pi cand cur Hc Hcur). reflexivity.
Qed.

(** An accepted candidate has positive density. *)
Lemma accepted_in_support {State : Type} (pi : State -> Q) (cand cur : State) (u : Q) :
  0 < pi cur -> 0 <= u ->
  Metropolis.accepts pi cand cur u = true -> 0 < pi cand.
Proof.
  intros Hcur Hu Hacc. apply accepts_true_iff in Hacc.
  destruct (Qlt_le_dec 0 (pi cand)) as [Hp|Hn]; [exact Hp|].
  pose proof (acceptance_nonpos State pi cand cur Hcur Hn). lra.
Qed.

Lemma step_in_support {State : Type} (pi : State -> Q) (cur cand : State) (u : Q) :
  0 < pi cur -> 0 <= u -> 0 < pi (Metropolis.step pi cur cand u).
Proof.
  intros Hcur Hu. unfold Metropolis.step.
  destruct (Metropolis.accepts pi cand cur u) eqn:E; [|exact Hcur].
  apply (accepted_in_support pi cand cur u Hcur Hu E).
Qed.

(** X5: the chain needs the target only up to a positive constant: run on
    c * pi and on pi from the same state with the same random stream, it
    visits the same positions. *)
Theorem metropolis_normalising_constant {State Noise : Type} (c : Q)
    (pi : State -> Q) (propose : State -> Noise -> State)
    (x0 : State) (rng : list (Noise * Q)) :
  0 < c ->
  Metropolis.in_support pi x0 ->
  Forall (fun zu => 0 <= snd zu) rng ->
  Metropolis.current
    (Metropolis.run (scaled_target c pi) propose (Metropolis.mkChain x0 []) rng)
  = Metropolis.current (Metropolis.run pi propose (Metropolis.mkChain x0 []) rng) /\
  map Metropolis.draw_position
    (Metropolis.trace
       (Metropolis.run (scaled_target c pi) propose (Metropolis.mkChain x0 []) rng))
  = map Metropolis.draw_position
      (Metropolis.trace (Metropolis.run pi propose (Metropolis.mkChain x0 []) rng)) /\
  map Metropolis.draw_accepted
    (Metropolis.trace
       (Metropolis.run (scaled_target c pi) propose (Metropolis.mkChain x0 []) rng))
  = map Metropolis.draw_accepted
      (Metropolis.trace (Metropolis.run pi propose (Metropolis.mkChain x0 []) rng)).
Proof.
  intros Hc Hx0 Hrng. unfold Metropolis.in_support in Hx0.
  assert (Hgen : forall (c1 c2 : Metropolis.Chain State),
             Metropolis.current c1 = Metropolis.current c2 ->
             0 < pi (Metropolis.current c2) ->
             map Metropolis.draw_position (Metropolis.trace c1)
             = map Metropolis.draw_position (Metropolis.trace c2) ->
             map Metropolis.draw_accepted (Metropolis.trace c1)
             = map Metropolis.draw_accepted (Metropolis.trace c2) ->
             Metropolis.current (Metropolis.run (scaled_target c pi) propose c1 rng)
             = Metropolis.current (Metropolis.run pi propose c2 rng) /\
             map Metropolis.draw_position
               (Metropolis.trace (Metropolis.run (scaled_target c pi) propose c1 rng))
             = map Metropolis.draw_position
                 (Metropolis.trace (Metropolis.run pi propose c2 rng)) /\
             map Metropolis.draw_accepted
               (Metropolis.trace (Metropolis.run (scaled_target c pi) propose c1 rng))
             = map Metropolis.draw_accepted
                 (Metropolis.trace (Metropolis.run pi propose c2 rng))).
  { induction Hrng as [|[z u] rest Hu Hrest IH]; intros c1 c2 Hcur Hpos Htr Hac.
    - simpl. auto.
    - simpl in Hu. cbn [Metropolis.run]. apply IH.
      + unfold Metropolis.sample_step, Metropolis.step. cbn [Metropolis.current].
        rewrite Hcur, (accepts_scaled c pi _ _ u Hc Hpos). reflexivity.
      + unfold Metropolis.sample_step. cbn [Metropolis.current].
        apply step_in_support; assumption.
      + unfold Metropolis.sample_step, Metropolis.step. cbn [Metropolis.trace].
        rewrite !map_app, Htr. cbn [map Metropolis.draw_position].
        rewrite Hcur, (accepts_scaled c pi _ _ u Hc Hpos). reflexivity.
      + unfold Metropolis.sample_step. cbn [Metropolis.trace].
        rewrite !map_app, Hac. cbn [map Metropolis.draw_accepted].
        rewrite Hcur, (accepts_scaled c pi _ _ u Hc Hpos). reflexivity. }
  apply Hgen; auto.
Qed.

Lemma metropolis_normalising_constant_witness :
  map Metropolis.draw_position
    (Metropolis.trace
       (Metropolis.run (scaled_target 7 Metropolis.half_line_target)
          (Metropolis.random_walk 1) (Metropolis.mkChain 1 [])
          [(- (1 # 2), 9 # 10); (- (1), 1 # 2); (2, 1 # 10)]))
  = map Metropolis.draw_position
      (Metropolis.trace
         (Metropolis.run Metropolis.half_line_target
            (Metropolis.random_walk 1) (Metropolis.mkChain 1 [])
            [(- (1 # 2), 9 # 10); (- (1), 1 # 2); (2, 1 # 10)])).
Proof.
  refine (proj1 (proj2 (metropolis_normalising_constant 7
            Metropolis.half_line_target (Metropolis.random_walk 1) 1
            [(- (1 # 2), 9 # 10); (- (1), 1 # 2); (2, 1 # 10)] _ _ _))).
  - reflexivity.
  - reflexivity.
  - repeat constructor; discriminate.
Defined.

Lemma acceptance_probability_cases {State : Type} (pi : State -> Q) (cand cur : State) :
  (1 <= Metropolis.acceptance pi cand cur /\ acceptance_probability pi cand cur = 1) \/
  (Metropolis.acceptance pi cand cur < 1 /\
   acceptance_probability pi cand cur = Metropolis.acceptance pi cand cur).
Proof.
  unfold acceptance_probability. cbv zeta.
  destruct (Qle_bool 1 (Metropolis.acceptance pi cand cur)) eqn:E.
  - left. apply Qle_bool_iff in E. auto.
  - right. split; [|reflexivity].
    destruct (Qlt_le_dec (Metropolis.acceptance pi cand cur) 1) as [H|H]; [exact H|].
    apply Qle_bool_iff in H. congruence.
Qed.

(** X6: the candidate is taken exactly when u is below
    min (1, pi(theta') / pi(theta)), which lies in [0,1]; and this
    acceptance probability satisfies the detailed balance equation
    pi(x) P(y|x) = pi(y) P(x|y) of the slides for any two states of positive
    density. *)
Theorem metropolis_detailed_balance {State : Type} (pi : State -> Q)
    (x y : State) (u : Q) :
  0 < pi x -> 0 < pi y -> 0 <= u -> u < 1 ->
  (Metropolis.accepts pi y x u = true <-> u < acceptance_probability pi y x) /\
  0 < acceptance_probability pi y x <= 1 /\
  pi x * acceptance_probability pi y x == pi y * acceptance_probability pi x y.
Proof.
  intros Hx Hy Hu0 Hu1.
  pose proof (acceptance_pos State pi y x Hx Hy) as Hayx.
  pose proof (acceptance_pos State pi x y Hy Hx) as Haxy.
  assert (Hinv : Metropolis.acceptance pi y x * Metropolis.acceptance pi x y == 1).
  { unfold Metropolis.acceptance. field. split; lra. }
  assert (Hbal : pi x * Metropolis.acceptance pi y x == pi y).
  { unfold Metropolis.acceptance. field. lra. }
  assert (Hbal' : pi y * Metropolis.acceptance pi x y == pi x).
  { unfold Metropolis.acceptance. field. lra. }
  rewrite accepts_true_iff.
  destruct (acceptance_probability_cases pi y x) as [[H1 ->]|[H1 ->]];
    destruct (acceptance_probability_cases pi x y) as [[H2 ->]|[H2 ->]].
  - assert (Ha : Metropolis.acceptance pi y x == 1) by nra.
    repeat split; try lra. nra.
  - repeat split; try lra.
  - repeat split; try lra.
  - exfalso. nra.
Qed.

Lemma metropolis_detailed_balance_witness :
  Metropolis.half_line_target 1 * acceptance_probability Metropolis.half_line_target 3 1
  == Metropolis.half_line_target 3 * acceptance_probability Metropolis.half_line_target 1 3.
Proof.
  refine (proj2 (proj2 (metropolis_detailed_balance Metropolis.half_line_target
                          1 3 (1 # 2) _ _ _ _)));
    reflexivity || discriminate.
Defined.

(** X7: a candidate at least as dense as the current state is taken for
    every u < 1, but at u = 1 a candidate of equal density is refused (the
    comparison is strict); and a candidate taken for some u is taken for
    every smaller u. *)
Theorem metropolis_uphill_always_accepted {State : Type} (pi : State -> Q)
    (cur cand : State) (u u' : Q) :
  0 < pi cur ->
  (pi cur <= pi cand -> u < 1 -> Metropolis.step pi cur cand u = cand) /\
  (pi cand == pi cur -> Metropolis.step pi cur cand 1 = cur) /\
  (u' <= u -> Metropolis.accepts pi cand cur u = true ->
   Metropolis.accepts pi cand cur u' = true).
Proof.
  intros Hcur. split; [|split].
  - intros Hup Hu. unfold Metropolis.step.
    assert (Hacc : Metropolis.accepts pi cand cur u = true).
    { apply accepts_true_iff.
      assert (H1 : 1 <= Metropolis.acceptance pi cand cur).
      { unfold Metropolis.acceptance. apply Qle_shift_div_l; lra. }
      lra. }
    rewrite Hacc. reflexivity.
  - intros Heq. unfold Metropolis.step.
    destruct (Metropolis.accepts pi cand cur 1) eqn:E; [|reflexivity].
    apply accepts_true_iff in E. exfalso.
    assert (H1 : Metropolis.acceptance pi cand cur == 1).
    { unfold Metropolis.acceptance. rewrite Heq. field. lra. }
    lra.
  - intros Hle Hacc. apply accepts_true_iff in Hacc. apply accepts_true_iff. lra.
Qed.

Lemma metropolis_uphill_always_accepted_witness :
  Metropolis.step Metropolis.half_line_target 3 1 (99 # 100) = 1.
Proof.
  refine (proj1 (metropolis_uphill_always_accepted Metropolis.half_line_target
                   3 1 (99 # 100) 0 _) _ _);
    reflexivity || discriminate.
Defined.

(** X8: a chain started inside the support never leaves it: every draw it
    records has positive density, carries the density of its own position,
    and the last draw recorded is the current state. *)
Theorem metropolis_stays_in_support {State Noise : Type} (pi : State -> Q)
    (propose : State -> Noise -> State)
    (x0 : State) (rng : list (Noise * Q)) :
  Metropolis.in_support pi x0 ->
  Forall (fun zu => 0 <= snd zu) rng ->
  let c := Metropolis.run pi propose (Metropolis.mkChain x0 []) rng in
  Metropolis.in_support pi (Metropolis.current c) /\
  Forall (fun d => Metropolis.in_support pi (Metropolis.draw_position d) /\
                   Metropolis.draw_density d = pi (Metropolis.draw_position d))
         (Metropolis.trace c) /\
  (rng <> [] ->
   Metropolis.draw_position <$> last (Metropolis.trace c)
   = Some (Metropolis.current c)).
Proof.
  intros Hx0 Hrng. cbv zeta. unfold Metropolis.in_support in *.
  assert (Hgen : forall c0 : Metropolis.Chain State,
             0 < pi (Metropolis.current c0) ->
             Forall (fun d => 0 < pi (Metropolis.draw_position d) /\
                              Metropolis.draw_density d = pi (Metropolis.draw_position d))
                    (Metropolis.trace c0) ->
             (rng <> [] \/
              Metropolis.draw_position <$> last (Metropolis.trace c0)
              = Some (Metropolis.current c0)) ->
             0 < pi (Metropolis.current (Metropolis.run pi propose c0 rng)) /\
             Forall (fun d => 0 < pi (Metropolis.draw_position d) /\
                              Metropolis.draw_density d = pi (Metropolis.draw_position d))
                    (Metropolis.trace (Metropolis.run pi propose c0 rng)) /\
             Metropolis.draw_position
               <$> last (Metropolis.trace (Metropolis.run pi propose c0 rng))
             = Some (Metropolis.current (Metropolis.run pi propose c0 rng))).
  { induction Hrng as [|[z u] rest Hu Hrest IH]; intros c0 Hcur Htr Hlast.
    - simpl. destruct Hlast as [H|H]; [contradiction|]. auto.
    - simpl in Hu. cbn [Metropolis.run].
      pose proof (step_in_support pi (Metropolis.current c0)
                    (propose (Metropolis.current c0) z) u Hcur Hu) as Hnext.
      apply IH.
      + exact Hnext.
      + unfold Metropolis.sample_step. cbn [Metropolis.trace].
        apply Forall_app. split; [exact Htr|].
        constructor; [|constructor]. cbn. split; [exact Hnext | reflexivity].
      + right. unfold Metropolis.sample_step. cbn [Metropolis.trace Metropolis.current].
        rewrite last_snoc. reflexivity. }
  destruct rng as [|r rest].
  - simpl. split; [exact Hx0|]. split; [constructor|]. intros H. contradiction.
  - destruct (Hgen (Metropolis.mkChain x0 [])) as (H1 & H2 & H3).
    + exact Hx0.
    + constructor.
    + left. discriminate.
    + split; [exact H1|]. split; [exact H2|]. intros _. exact H3.
Qed.

Lemma metropolis_stays_in_support_witness :
  Metropolis.in_support Metropolis.half_line_target
    (Metropolis.current
       (Metropolis.run Metropolis.half_line_target (Metropolis.random_walk 1)
          (Metropolis.mkChain 1 [])
          [(- (1 # 2), 9 # 10); (- (2), 1 # 2); (2, 1 # 10)])).
Proof.
  refine (proj1 (metropolis_stays_in_support Metropolis.half_line_target
                   (Metropolis.random_walk 1) 1
                   [(- (1 # 2), 9 # 10); (- (2), 1 # 2); (2, 1 # 10)] _ _)).
  - reflexivity.
  - repeat constructor; discriminate.
Defined.

(** ** The Hamiltonian of the slides *)

Lemma dot_self_nonneg (p : Hamiltonian.Vec) : 0 <= Hamiltonian.dot p p.
Proof.
  unfold Hamiltonian.dot. induction p as [|x p IH]; simpl; [lra|].
  pose proof (sq_nonneg x) as Hx. unfold sq in Hx. lra.
Qed.

Lemma dot_vneg (p : Hamiltonian.Vec) :
  Hamiltonian.dot (vneg p) (vneg p) == Hamiltonian.dot p p.
Proof.
  unfold Hamiltonian.dot, vneg. induction p as [|x p IH]; simpl; [reflexivity|].
  rewrite IH, (Qred_correct (- x)). ring.
Qed.

(** X9: the kinetic energy 1/2 sum phi_i^2 is never negative, so the
    Hamiltonian is at least the potential energy, and reversing the momentum
    leaves the Hamiltonian unchanged. *)
Theorem hamiltonian_momentum_reversal (potential : Hamiltonian.Vec -> Q)
    (z : Hamiltonian.PhasePoint) :
  0 <= Hamiltonian.kinetic (Hamiltonian.momentum z) /\
  potential (Hamiltonian.position z) <= Hamiltonian.hamiltonian potential z /\
  Hamiltonian.hamiltonian potential (flip z) == Hamiltonian.hamiltonian potential z.
Proof.
  pose proof (dot_self_nonneg (Hamiltonian.momentum z)) as Hd.
  assert (Hk : 0 <= Hamiltonian.kinetic (Hamiltonian.momentum z)).
  { unfold Hamiltonian.kinetic. lra. }
  split; [exact Hk|]. split.
  - unfold Hamiltonian.hamiltonian. lra.
  - unfold Hamiltonian.hamiltonian, Hamiltonian.kinetic, flip.
    cbn [Hamiltonian.position Hamiltonian.momentum].
    rewrite dot_vneg. reflexivity.
Qed.

(** ** The Six Nations model *)

Example center_ex : Rugby.center [1; 2; 6] = [1 - 9 / 3; 2 - 9 / 3; 6 - 9 / 3].
Proof. reflexivity. Qed.

Lemma sumQ_minus_const (m : Q) (xs : list Q) :
  sumQ (map (fun x => x - m) xs) == sumQ xs - lenQ xs * m.
Proof.
  induction xs as [|x xs IH].
  - unfold lenQ. simpl. ring.
  - cbn [map sumQ]. rewrite IH, lenQ_cons. ring.
Qed.

Lemma center_shift_terms (c m m' : Q) (xs : list Q) :
  m' == m + c ->
  Forall2 Qeq (map (fun x => x - m') (affine 1 c xs)) (map (fun x => x - m) xs).
Proof.
  intros Hm. induction xs as [|x xs IH]; simpl; constructor.
  - rewrite Hm. ring.
  - exact IH.
Qed.

(** X10: the centred skills alpha - mean(alpha) sum to zero, and they do not
    change when the same constant is added to every skill. *)
Theorem centered_skills_sum_to_zero (xs : list Q) (c : Q) :
  sumQ (Rugby.center xs) == 0 /\
  length (Rugby.center xs) = length xs /\
  Forall2 Qeq (Rugby.center (affine 1 c xs)) (Rugby.center xs).
Proof.
  split; [|split].
  - unfold Rugby.center. rewrite sumQ_minus_const.
    destruct xs as [|x xs]; [unfold lenQ; simpl; ring|].
    assert (Hn : 0 < lenQ (x :: xs)) by (apply lenQ_pos; discriminate).
    unfold mean. field. lra.
  - unfold Rugby.center. apply length_map.
  - unfold Rugby.center. destruct xs as [|x xs]; [constructor|].
    apply center_shift_terms.
    rewrite mean_affine by discriminate. ring.
Qed.

Lemma lookup_center (xs : list Q) (i : nat) :
  Rugby.center xs !! i = (fun x => x - mean xs) <$> xs !! i.
Proof. unfold Rugby.center. apply list_lookup_fmap. Qed.

(** X11: for two teams of the league, the log of the home rate computed by
    the model code exceeds the notebook's formula
    mu + eta + alpha*_h + delta*_a by mean(delta), and the log of the away
    rate exceeds mu + alpha*_a + delta*_h by mean(alpha) + mean(delta): the
    code centres only the home attack.  Both rates are positive. *)
Theorem rugby_rates_against_formulas (p : Rugby.Params) (h a : nat) :
  length (Rugby.alpha p) = length (Rugby.delta p) ->
  (h < length (Rugby.alpha p))%nat ->
  (a < length (Rugby.alpha p))%nat ->
  exists lh la fh fa : Q,
    Rugby.home_log_theta p h a = Some lh /\
    Rugby.away_log_theta p h a = Some la /\
    Rugby.home_log_theta_formula p h a = Some fh /\
    Rugby.away_log_theta_formula p h a = Some fa /\
    lh == fh + mean (Rugby.delta p) /\
    la == fa + mean (Rugby.alpha p) + mean (Rugby.delta p) /\
    Rugby.home_theta p h a = Some (exp (Q2R lh)) /\
    Rugby.away_theta p h a = Some (exp (Q2R la)) /\
    (0 < exp (Q2R lh))%R /\ (0 < exp (Q2R la))%R.
Proof.
  intros Hlen Hh Ha.
  destruct (lookup_lt_is_Some_2 (Rugby.alpha p) h Hh) as [xh Hxh].
  destruct (lookup_lt_is_Some_2 (Rugby.alpha p) a Ha) as [xa Hxa].
  rewrite Hlen in Hh, Ha.
  destruct (lookup_lt_is_Some_2 (Rugby.delta p) h Hh) as [dh Hdh].
  destruct (lookup_lt_is_Some_2 (Rugby.delta p) a Ha) as [da Hda].
  exists (Rugby.mu p + Rugby.eta p + (xh - mean (Rugby.alpha p)) + da),
         (Rugby.mu p + xa + dh),
         (Rugby.mu p + Rugby.eta p + (xh - mean (Rugby.alpha p))
          + (da - mean (Rugby.delta p))),
         (Rugby.mu p + (xa - mean (Rugby.alpha p)) + (dh - mean (Rugby.delta p))).
  unfold Rugby.home_theta, Rugby.away_theta, Rugby.home_log_theta,
    Rugby.away_log_theta, Rugby.home_log_theta_formula, Rugby.away_log_theta_formula.
  rewrite !lookup_center, Hxh, Hxa, Hdh, Hda. cbn.
  repeat split; try reflexivity; try ring; apply exp_pos.
Qed.

Lemma rugby_rates_against_formulas_witness :
  exists lh la fh fa : Q,
    Rugby.home_log_theta (Rugby.mkParams 3 1 [1; 2; 6] [0; 1; 5]) 0 2 = Some lh /\
    Rugby.away_log_theta (Rugby.mkParams 3 1 [1; 2; 6] [0; 1; 5]) 0 2 = Some la /\
    Rugby.home_log_theta_formula (Rugby.mkParams 3 1 [1; 2; 6] [0; 1; 5]) 0 2 = Some fh /\
    Rugby.away_log_theta_formula (Rugby.mkParams 3 1 [1; 2; 6] [0; 1; 5]) 0 2 = Some fa /\
    lh == fh + mean [0; 1; 5] /\
    la == fa + mean [1; 2; 6] + mean [0; 1; 5].
Proof.
  destruct (rugby_rates_against_formulas (Rugby.mkParams 3 1 [1; 2; 6] [0; 1; 5]) 0 2)
    as (lh & la & fh & fa & H1 & H2 & H3 & H4 & H5 & H6 & _).
  - reflexivity.
  - simpl. lia.
  - simpl. lia.
  - exists lh, la, fh, fa. repeat split; assumption.
Defined.

(** ** Predictions: the share of draws won *)

Lemma indicator_sums (xs ys : list Z) :
  0 <= sumQ (zip_with Rugby.greater_indicator xs ys) /\
  sumQ (zip_with Rugby.greater_indicator xs ys)
  + sumQ (zip_with Rugby.greater_indicator ys xs)
  <= lenQ (zip_with Rugby.greater_indicator xs ys).
Proof.
  revert ys. induction xs as [|x xs IH]; intros ys.
  - destruct ys; cbn; unfold lenQ; cbn; split; discriminate.
  - destruct ys as [|y ys].
    + cbn. unfold lenQ. cbn. split; discriminate.
    + cbn [zip_with sumQ]. rewrite lenQ_cons.
      destruct (IH ys) as [H0 H1].
      set (s1 := sumQ (zip_with Rugby.greater_indicator xs ys)) in *.
      set (s2 := sumQ (zip_with Rugby.greater_indicator ys xs)) in *.
      set (n := lenQ (zip_with Rugby.greater_indicator xs ys)) in *.
      clearbody s1 s2 n. unfold Rugby.greater_indicator.
      destruct (Z.ltb_spec y x), (Z.ltb_spec x y); try lia; split; lra.
Qed.

Lemma length_zip_indicator (xs ys : list Z) :
  length xs = length ys ->
  length (zip_with Rugby.greater_indicator xs ys) = length xs /\
  length (zip_with Rugby.greater_indicator ys xs) = length xs.
Proof.
  intros H. rewrite !length_zip_with. lia.
Qed.

(** X13: over two arrays of predictive draws of the same non-zero length,
    the share of draws in which the home score is the larger lies in [0,1],
    and the home share and the away share together never exceed 1. *)
Theorem share_greater_is_a_share (home_pred away_pred : list Z) :
  length home_pred = length away_pred ->
  home_pred <> [] ->
  0 <= Rugby.share_greater home_pred away_pred <= 1 /\
  Rugby.share_greater home_pred away_pred
  + Rugby.share_greater away_pred home_pred <= 1.
Proof.
  intros Hlen Hne.
  destruct (length_zip_indicator home_pred away_pred Hlen) as [L1 L2].
  destruct (indicator_sums home_pred away_pred) as [H0 H1].
  destruct (indicator_sums away_pred home_pred) as [H0' _].
  assert (Hn : 0 < lenQ home_pred) by (apply lenQ_pos; exact Hne).
  unfold Rugby.share_greater, mean.
  assert (E1 : lenQ (zip_with Rugby.greater_indicator home_pred away_pred)
               = lenQ home_pred) by (unfold lenQ; rewrite L1; reflexivity).
  assert (E2 : lenQ (zip_with Rugby.greater_indicator away_pred home_pred)
               = lenQ home_pred) by (unfold lenQ; rewrite L2; reflexivity).
  rewrite E1 in *. rewrite E2.
  set (s1 := sumQ (zip_with Rugby.greater_indicator home_pred away_pred)) in *.
  set (s2 := sumQ (zip_with Rugby.greater_indicator away_pred home_pred)) in *.
  set (n := lenQ home_pred) in *. clearbody s1 s2 n.
  assert (0 <= s1 / n) by (apply Qle_shift_div_l; lra).
  assert (s1 / n <= 1) by (apply Qle_shift_div_r; lra).
  assert (Hsum : s1 / n + s2 / n == (s1 + s2) / n) by (field; lra).
  assert ((s1 + s2) / n <= 1) by (apply Qle_shift_div_r; lra).
  repeat split; lra.
Qed.

Lemma share_greater_is_a_share_witness :
  0 <= Rugby.share_greater [20; 13; 31; 17]%Z [17; 13; 40; 3]%Z <= 1.
Proof.
  refine (proj1 (share_greater_is_a_share [20; 13; 31; 17]%Z [17; 13; 40; 3]%Z _ _)).
  - reflexivity.
  - discriminate.
Defined.

(** ** The changepoint model *)

Example changepoint_ex :
  Changepoint.r (5 # 2) [0; 1; 2; 3; 4]%Z 2500 2400
  = [2500; 2500; 2500; 2400; 2400].
Proof. reflexivity. Qed.

(** X12: r holds one mean per pitch, the early mean mu[0] for the days up to
    and including tau and the late mean mu[1] after it; it agrees with the
    notebook's formula (mu_1 if t < tau, mu_2 if t >= tau) on every day but
    the changepoint day itself, where the code still takes the early mean and
    the formula already the late one. *)
Theorem changepoint_switch (tau mu0 mu1 : Q) (day_ind : list Z) :
  length (Changepoint.r tau day_ind mu0 mu1) = length day_ind /\
  (forall (i : nat) (t : Z),
      day_ind !! i = Some t ->
      (inject_Z t <= tau -> Changepoint.r tau day_ind mu0 mu1 !! i = Some mu0) /\
      (tau < inject_Z t -> Changepoint.r tau day_ind mu0 mu1 !! i = Some mu1)) /\
  (forall t : Z,
      ~ inject_Z t == tau ->
      Changepoint.switch_mean tau mu0 mu1 t = Changepoint.r_formula tau mu0 mu1 t) /\
  (forall t : Z,
      inject_Z t == tau ->
      Changepoint.switch_mean tau mu0 mu1 t = mu0 /\
      Changepoint.r_formula tau mu0 mu1 t = mu1).
Proof.
  assert (Hle : forall t, inject_Z t <= tau -> Changepoint.switch_mean tau mu0 mu1 t = mu0).
  { intros t H. unfold Changepoint.switch_mean.
    apply Qle_bool_iff in H. rewrite H. reflexivity. }
  assert (Hgt : forall t, tau < inject_Z t -> Changepoint.switch_mean tau mu0 mu1 t = mu1).
  { intros t H. unfold Changepoint.switch_mean.
    destruct (Qle_bool (inject_Z t) tau) eqn:E; [|reflexivity].
    apply Qle_bool_iff in E. lra. }
  assert (Flt : forall t, inject_Z t < tau -> Changepoint.r_formula tau mu0 mu1 t = mu0).
  { intros t H. unfold Changepoint.r_formula, Qltb.
    destruct (Qle_bool tau (inject_Z t)) eqn:E; [|reflexivity].
    apply Qle_bool_iff in E. lra. }
  assert (Fge : forall t, tau <= inject_Z t -> Changepoint.r_formula tau mu0 mu1 t = mu1).
  { intros t H. unfold Changepoint.r_formula, Qltb.
    apply Qle_bool_iff in H. rewrite H. reflexivity. }
  split; [apply length_map|]. split; [|split].
  - intros i t Hi. unfold Changepoint.r. rewrite list_lookup_fmap, Hi. cbn.
    split; intros H; f_equal; auto.
  - intros t Hne. destruct (Qlt_le_dec (inject_Z t) tau) as [H|H].
    + rewrite Hle by lra. rewrite Flt by exact H. reflexivity.
    + assert (Hlt : tau < inject_Z t).
      { destruct (Qlt_le_dec tau (inject_Z t)) as [H'|H']; [exact H'|].
        exfalso. apply Hne. lra. }
      rewrite Hgt by exact Hlt. rewrite Fge by exact H. reflexivity.
  - intros t Heq. split; [apply Hle | apply Fge]; lra.
Qed.

(** ** Parallel sampling: c chains of n draws *)

Lemma metropolis_draw_adds_one (pi : Q -> Q) (scale : Q) (w : Orchestrator.Worker) :
  length (Metropolis.trace (Orchestrator.worker_chain
                              (Orchestrator.metropolis_draw pi scale w)))
  = S (length (Metropolis.trace (Orchestrator.worker_chain w))).
Proof.
  unfold Orchestrator.metropolis_draw, Metropolis.sample_step.
  cbn [Orchestrator.worker_chain Metropolis.trace].
  rewrite length_app. simpl. lia.
Qed.

Lemma metropolis_draws_add (pi : Q -> Q) (scale : Q) (D : nat) (w : Orchestrator.Worker) :
  length (Metropolis.trace
            (Orchestrator.worker_chain
               (Nat.iter D (Orchestrator.metropolis_draw pi scale) w)))
  = (D + length (Metropolis.trace (Orchestrator.worker_chain w)))%nat.
Proof.
  induction D as [|D IH]; [reflexivity|].
  cbn [Nat.iter nat_rect]. rewrite metropolis_draw_adds_one.
  unfold Nat.iter in IH. rewrite IH. lia.
Qed.

(** X14: "running n iterations with c chains will result in c x n
    samples": after a complete run of C Metropolis chains, in whatever order
    their draws were made, every chain holds exactly D draws and the ensemble
    holds C * D. *)
Theorem chains_times_draws (pi : Q -> Q) (scale x0 : Q) (base_seed : Z)
    (C D : nat) (sched : list nat) :
  Orchestrator.complete_schedule C D sched = true ->
  let e := Orchestrator.run_schedule (Orchestrator.metropolis_draw pi scale) sched
             (Orchestrator.launch (Orchestrator.metropolis_init x0) base_seed C) in
  length e = C /\
  draws_held e = replicate C D /\
  sum_list (draws_held e) = (C * D)%nat.
Proof.
  intros Hc e.
  assert (Hlen : length e = C).
  { unfold e. rewrite run_schedule_length. unfold Orchestrator.launch.
    rewrite length_fmap, length_seq. reflexivity. }
  assert (Hheld : draws_held e = replicate C D).
  { apply list_eq. intros i. unfold draws_held, e.
    rewrite list_lookup_fmap.
    rewrite (complete_run_lookup _ (Orchestrator.metropolis_init x0)
               (Orchestrator.metropolis_draw pi scale) base_seed C D sched i Hc).
    destruct (decide (i < C)%nat) as [Hlt|Hge].
    - rewrite lookup_replicate_2 by exact Hlt. cbn. f_equal.
      rewrite metropolis_draws_add. simpl. lia.
    - symmetry. apply lookup_replicate_None. lia. }
  split; [exact Hlen|]. split; [exact Hheld|].
  rewrite Hheld, sum_list_replicate. reflexivity.
Qed.

Lemma chains_times_draws_witness :
  sum_list
    (draws_held
       (Orchestrator.run_schedule
          (Orchestrator.metropolis_draw Metropolis.half_line_target 2)
          [2; 0; 1; 1; 0; 2]%nat
          (Orchestrator.launch (Orchestrator.metropolis_init 1) 42 3)))
  = (3 * 2)%nat.
Proof.
  refine (proj2 (proj2 (chains_times_draws Metropolis.half_line_target 2 1 42 3 2
                          [2; 0; 1; 1; 0; 2]%nat _))).
  reflexivity.
Defined.

(** ** Back-transformation recovers the original variable *)

(** X16: for a value strictly inside the support, transforming it to the
    unconstrained scale and back-transforming recovers the value. *)
Theorem back_transform_recovers (s : Transform.Support) (x : R) :
  Transform.well_formed s ->
  strictly_inside s x ->
  Transform.backward s (Transform.forward s x) = x /\
  Transform.in_support s x.
Proof.
  destruct s as [|a|b|a b]; simpl; intros Hwf Hin.
  - split; [reflexivity | exact I].
  - split; [|lra]. rewrite exp_ln by lra. lra.
  - split; [|lra]. rewrite exp_ln by lra. lra.
  - split; [|lra].
    assert (Hr : (0 < (x - a) / (b - x))%R).
    { apply Rdiv_lt_0_compat; lra. }
    unfold Transform.sigmoid. rewrite exp_Ropp, exp_ln by exact Hr.
    field. repeat split; lra.
Qed.

Lemma back_transform_recovers_witness :
  Transform.backward (Transform.Bounded 0 77)
    (Transform.forward (Transform.Bounded 0 77) 68%R) = 68%R.
Proof.
  refine (proj1 (back_transform_recovers (Transform.Bounded 0 77) 68%R _ _)).
  - simpl. lra.
  - simpl. lra.
Defined.

(** ** Leapfrog steps can be retraced *)

Lemma lookup_vsub (a b : list Q) (i : nat) (x y : Q) :
  a !! i = Some x -> b !! i = Some y ->
  Hamiltonian.vsub a b !! i = Some (Qred (x - y)).
Proof.
  intros Ha Hb. unfold Hamiltonian.vsub, Hamiltonian.Vec.
  rewrite lookup_zip_with, Ha, Hb. reflexivity.
Qed.

Lemma lookup_vadd (a b : list Q) (i : nat) (x y : Q) :
  a !! i = Some x -> b !! i = Some y ->
  Hamiltonian.vadd a b !! i = Some (Qred (x + y)).
Proof.
  intros Ha Hb. unfold Hamiltonian.vadd, Hamiltonian.Vec.
  rewrite lookup_zip_with, Ha, Hb. reflexivity.
Qed.

Lemma lookup_vscale (c : Q) (a : list Q) (i : nat) (x : Q) :
  a !! i = Some x -> Hamiltonian.vscale c a !! i = Some (Qred (c * x)).
Proof.
  intros Ha. unfold Hamiltonian.vscale, Hamiltonian.Vec.
  change (map (fun x0 => Qred (c * x0)) a) with ((fun x0 => Qred (c * x0)) <$> a).
  rewrite list_lookup_fmap, Ha. reflexivity.
Qed.

Lemma lookup_vneg (a : list Q) (i : nat) (x : Q) :
  a !! i = Some x -> vneg a !! i = Some (Qred (- x)).
Proof.
  intros Ha. unfold vneg, Hamiltonian.Vec.
  change (map (fun x0 => Qred (- x0)) a) with ((fun x0 => Qred (- x0)) <$> a).
  rewrite list_lookup_fmap, Ha. reflexivity.
Qed.

Lemma length_vsub (a b : list Q) (n : nat) :
  length a = n -> length b = n -> length (Hamiltonian.vsub a b) = n.
Proof. intros Ha Hb. unfold Hamiltonian.vsub. rewrite length_zip_with. lia. Qed.

Lemma length_vadd (a b : list Q) (n : nat) :
  length a = n -> length b = n -> length (Hamiltonian.vadd a b) = n.
Proof. intros Ha Hb. unfold Hamiltonian.vadd. rewrite length_zip_with. lia. Qed.

Lemma length_vscale (c : Q) (a : list Q) :
  length (Hamiltonian.vscale c a) = length a.
Proof. apply length_map. Qed.

Lemma length_vneg (a : list Q) : length (vneg a) = length a.
Proof. apply length_map. Qed.

Lemma reduced_lookup (v : list Q) (i : nat) (x : Q) :
  reduced v -> v !! i = Some x -> Qred x = x.
Proof.
  unfold reduced. rewrite List.Forall_forall. intros H Hi.
  apply H. apply list_elem_of_In. apply list_elem_of_lookup. exists i. exact Hi.
Qed.

(** X15: a leapfrog step can be retraced: from the end of a step, with the
    momentum reversed, one more step of the same size leads back to the
    starting position with the starting momentum reversed. *)
Theorem leapfrog_reversible (grad_potential : Hamiltonian.Vec -> Hamiltonian.Vec)
    (eps : Q) (z : Hamiltonian.PhasePoint) :
  (forall v, length (grad_potential v) = length v) ->
  length (Hamiltonian.momentum z) = length (Hamiltonian.position z) ->
  reduced (Hamiltonian.position z) ->
  Hamiltonian.leapfrog grad_potential eps (flip (Hamiltonian.leapfrog grad_potential eps z))
  = flip z.
Proof.
  intros Hg Hlen Hred. destruct z as [q p].
  cbn [Hamiltonian.position Hamiltonian.momentum] in *.
  unfold Hamiltonian.leapfrog, flip.
  cbn [Hamiltonian.position Hamiltonian.momentum].
  set (n := length q).
  set (k := eps / 2).
  set (ph := Hamiltonian.vsub p (Hamiltonian.vscale k (grad_potential q))).
  set (q' := Hamiltonian.vadd q (Hamiltonian.vscale eps ph)).
  set (p' := Hamiltonian.vsub ph (Hamiltonian.vscale k (grad_potential q'))).
  set (ph2 := Hamiltonian.vsub (vneg p') (Hamiltonian.vscale k (grad_potential q'))).
  assert (Lph : length ph = n).
  { apply length_vsub; [exact Hlen|]. rewrite length_vscale. apply Hg. }
  assert (Lq' : length q' = n).
  { apply length_vadd; [reflexivity|]. rewrite length_vscale. exact Lph. }
  assert (Lp' : length p' = n).
  { apply length_vsub; [exact Lph|]. rewrite length_vscale, Hg. exact Lq'. }
  assert (Lph2 : length ph2 = n).
  { apply length_vsub; [rewrite length_vneg; exact Lp'|].
    rewrite length_vscale, Hg. exact Lq'. }
  assert (Hpoint : forall i, (i < n)%nat ->
            exists qi pi gi gi' : Q,
              q !! i = Some qi /\ p !! i = Some pi /\
              grad_potential q !! i = Some gi /\
              grad_potential q' !! i = Some gi' /\
              ph !! i = Some (Qred (pi - Qred (k * gi))) /\
              ph2 !! i
              = Some (Qred (Qred (- Qred (Qred (pi - Qred (k * gi)) - Qred (k * gi')))
                            - Qred (k * gi')))).
  { intros i Hi.
    destruct (lookup_lt_is_Some_2 q i) as [qi Hqi]; [exact Hi|].
    destruct (lookup_lt_is_Some_2 p i) as [pi Hpi]; [rewrite Hlen; exact Hi|].
    destruct (lookup_lt_is_Some_2 (grad_potential q) i) as [gi Hgi];
      [rewrite Hg; exact Hi|].
    destruct (lookup_lt_is_Some_2 (grad_potential q') i) as [gi' Hgi'];
      [rewrite Hg, Lq'; exact Hi|].
    exists qi, pi, gi, gi'.
    assert (Hph : ph !! i = Some (Qred (pi - Qred (k * gi)))).
    { apply lookup_vsub; [exact Hpi|]. apply lookup_vscale. exact Hgi. }
    repeat split; try assumption.
    apply lookup_vsub; [|apply lookup_vscale; exact Hgi'].
    apply lookup_vneg. apply lookup_vsub; [exact Hph|].
    apply lookup_vscale. exact Hgi'. }
  assert (Hq : Hamiltonian.vadd q' (Hamiltonian.vscale eps ph2) = q).
  { apply (list_eq_same_length _ _ n); [reflexivity| |].
    - apply length_vadd; [exact Lq'|]. rewrite length_vscale. exact Lph2.
    - intros i x y Hi Hx Hy.
      destruct (Hpoint i Hi) as (qi & pi & gi & gi' & Hqi & Hpi & Hgi & Hgi' & Hph & Hph2).
      assert (Hq'i : q' !! i = Some (Qred (qi + Qred (eps * Qred (pi - Qred (k * gi)))))).
      { apply lookup_vadd; [exact Hqi|]. apply lookup_vscale. exact Hph. }
      pose proof (eq_trans (eq_sym Hx)
                    (lookup_vadd _ _ i _ _ Hq'i (lookup_vscale eps ph2 i _ Hph2))) as Ex.
      pose proof (eq_trans (eq_sym Hy) Hqi) as Ey.
      injection Ex as ->. injection Ey as ->.
      rewrite <- (reduced_lookup q i qi Hred Hqi) at 2.
      apply Qred_complete. rewrite !Qred_correct. ring. }
  rewrite Hq. f_equal.
  apply (list_eq_same_length _ _ n).
  - rewrite length_vneg. exact Hlen.
  - apply length_vsub; [exact Lph2|]. rewrite length_vscale. apply Hg.
  - intros i x y Hi Hx Hy.
    destruct (Hpoint i Hi) as (qi & pi & gi & gi' & Hqi & Hpi & Hgi & Hgi' & Hph & Hph2).
    pose proof (eq_trans (eq_sym Hx)
                  (lookup_vsub _ _ i _ _ Hph2 (lookup_vscale k _ i _ Hgi))) as Ex.
    pose proof (eq_trans (eq_sym Hy) (lookup_vneg p i pi Hpi)) as Ey.
    injection Ex as ->. injection Ey as ->.
    apply Qred_complete. rewrite !Qred_correct. ring.
Qed.

Lemma leapfrog_reversible_witness :
  Hamiltonian.leapfrog Hamiltonian.normal_gradient (1 # 2)
    (flip (Hamiltonian.leapfrog Hamiltonian.normal_gradient (1 # 2)
             (Hamiltonian.mkPoint [1; - (3 # 4)] [1 # 2; 2])))
  = flip (Hamiltonian.mkPoint [1; - (3 # 4)] [1 # 2; 2]).
Proof.
  apply (leapfrog_reversible Hamiltonian.normal_gradient (1 # 2)
           (Hamiltonian.mkPoint [1; - (3 # 4)] [1 # 2; 2])).
  - intros v. reflexivity.
  - reflexivity.
  - repeat constructor.
Defined.
